(** * QWF: the quantum wave-function kernels

    A shallow embedding of the numeric core of the repository:

    - [Sources/Rendering/Shaders/ShaderUtils.h]
      ([factorial], [hermite], [assoc_laguerre], [complex_mul], ...),
    - [Sources/Rendering/Shaders/ComplexUtils.h]
      ([complex_scale], [complex_mul_i], [calc_factorial], ...),
    - [Sources/Rendering/Shaders/QuantumWaveFunctions.h]
      ([free_particle], [infinite_well], [harmonic_oscillator],
      [hydrogen_atom], [calculateHarmonicOscillatorState]).

    Conventions of the embedding.

    - [int] is a [Z] whose arithmetic is wrapped to 32 bits, two's
      complement ([Int32.add] and friends): what the counters of the kernels
      do on the device.  (Read as host-side C++, an overflowing [i++] has no
      defined behaviour at all.)
    - [float] is a carrier [F] with the operations of the classes [FloatOps]
      (the arithmetic operators, the comparison, the conversions) and
      [MathLib] (the math library).  Every function of the source is
      written once, over that signature, with the operators in the order in
      which the source applies them.  What only depends on the control flow
      is proved for every implementation of the signature; what depends on
      the meaning of the operators is proved for the exact one, [R], and,
      where rounding, underflow, overflow or NaN decide, for the IEEE-754
      binary32 one ([binary32_FloatOps]).
    - A [for] loop is [for_loop]: its fuel bounds the number of times the
      body runs, and [None] is "still running when the fuel is spent".
    - Device memory behind a pointer is a total map from indices to values
      ([buffer]). *)

From Stdlib Require Import ZArith QArith Bool List Lia.
From Stdlib Require Import Reals Qreals Lra.
From Stdlib Require Import SpecFloat.
Import ListNotations.

Set Implicit Arguments.
Local Open Scope Z_scope.

(* ================================================================== *)
(** * Part I: the model *)
(* ================================================================== *)

(** ** 32-bit signed integers *)

Module Int32.

Definition min_signed : Z := -2147483648.
Definition max_signed : Z := 2147483647.
Definition modulus : Z := 4294967296.

Definition in_range (z : Z) : Prop := min_signed <= z <= max_signed.

(** Two's complement wrap-around of a mathematical integer. *)
Definition wrap (z : Z) : Z :=
  (z - min_signed) mod modulus + min_signed.

Definition add (a b : Z) : Z := wrap (a + b).
Definition sub (a b : Z) : Z := wrap (a - b).
Definition mul (a b : Z) : Z := wrap (a * b).

End Int32.

(** ** Partial results *)

Definition bind {A B : Type} (c : option A) (k : A -> option B) : option B :=
  match c with
  | Some a => k a
  | None => None
  end.

Notation "x <- c ;; k" := (bind c (fun x => k))
  (at level 61, c at next level, right associativity).

(** ** The [for] loop of the source

    [for (int i = i0; cond(i); i++) body] run from counter [i] and state [s].
    One unit of fuel is spent each time the body runs. *)

Section ForLoop.

Variable St : Type.
Variable cond : Z -> bool.
Variable body : Z -> St -> option St.

Fixpoint for_loop (fuel : nat) (i : Z) (s : St) {struct fuel} : option St :=
  if cond i then
    match fuel with
    | O => None
    | S fuel' =>
        match body i s with
        | Some s' => for_loop fuel' (Int32.add i 1) s'
        | None => None
        end
    end
  else Some s.

(** [k] runs of the body with a counter that does not wrap: what the loop
    computes when it leaves after [k] iterations. *)
Fixpoint iterate (k : nat) (i : Z) (s : St) {struct k} : option St :=
  match k with
  | O => Some s
  | S k' => s' <- body i s ;; iterate k' (i + 1) s'
  end.

End ForLoop.

(** ** The float signature *)

Class FloatOps (F : Type) : Type := {
  fadd : F -> F -> F;
  fsub : F -> F -> F;
  fmul : F -> F -> F;
  fdiv : F -> F -> F;
  fneg : F -> F;
  flt : F -> F -> bool;
  (** conversion of an [int] *)
  of_int : Z -> F;
  (** a decimal literal of the source *)
  flit : Q -> F
}.

(** The math library: [M_PI_F], [sqrt], [exp], [sin], [cos], [pow] and
    [atan2]. *)
Class MathLib (F : Type) : Type := {
  M_PI_F : F;
  fsqrt : F -> F;
  fexp : F -> F;
  fsin : F -> F;
  fcos : F -> F;
  fpow : F -> F -> F;
  fatan2 : F -> F -> F
}.

Arguments flit {F _} _%_Q.

Declare Scope fl_scope.
Delimit Scope fl_scope with fl.
Notation "a + b" := (fadd a b) : fl_scope.
Notation "a - b" := (fsub a b) : fl_scope.
Notation "a * b" := (fmul a b) : fl_scope.
Notation "a / b" := (fdiv a b) : fl_scope.
Notation "- a" := (fneg a) : fl_scope.
Notation "a <? b" := (flt a b) : fl_scope.
Notation "a >? b" := (flt b a) : fl_scope.

(** ** Memory behind a device pointer *)

Definition buffer (A : Type) : Type := Z -> A.

Definition store {A : Type} (m : buffer A) (i : Z) (v : A) : buffer A :=
  fun j => if Z.eqb j i then v else m j.

(** The first [size] cells of a buffer, in order. *)
Definition contents {A : Type} (m : buffer A) (size : Z) : list A :=
  map (fun k => m (Z.of_nat k)) (seq 0 (Z.to_nat size)).

(** ** The kernels *)

(** [int calc_factorial(int n)], the same in [Shaders/ComplexUtils.h] and in
    [Utils/ComplexUtils.h]: the product is an [int] and wraps. *)
Definition calc_factorial (fuel : nat) (n : Z) : option Z :=
  for_loop (fun i => Z.leb i n)
           (fun i result => Some (Int32.mul result i))
           fuel 2%Z 1%Z.

Section Kernels.

Context {F : Type} `{FloatOps F} `{MathLib F}.
Local Open Scope fl_scope.

(** *** ShaderUtils.h: the complex type and its first operations *)

Record ComplexType : Type := mkComplex { real : F; imag : F }.

Definition complex_mul (a b : ComplexType) : ComplexType :=
  {| real := real a * real b - imag a * imag b;
     imag := real a * imag b + imag a * real b |}.

Definition complex_conj (z : ComplexType) : ComplexType :=
  {| real := real z; imag := - imag z |}.

Definition complex_abs2 (z : ComplexType) : F :=
  real z * real z + imag z * imag z.

Definition complex_phase (z : ComplexType) : F :=
  fatan2 (imag z) (real z).

(** *** ComplexUtils.h *)

Definition complex_add (a b : ComplexType) : ComplexType :=
  {| real := real a + real b; imag := imag a + imag b |}.

Definition complex_sub (a b : ComplexType) : ComplexType :=
  {| real := real a - real b; imag := imag a - imag b |}.

Definition complex_scale (z : ComplexType) (scale : F) : ComplexType :=
  {| real := real z * scale; imag := imag z * scale |}.

Definition complex_mul_scalar (a : ComplexType) (s : F) : ComplexType :=
  {| real := real a * s; imag := imag a * s |}.

Definition complex_mul_i (a : ComplexType) : ComplexType :=
  {| real := - imag a; imag := real a |}.

Definition complex_dot (a b : ComplexType) : F :=
  real a * real b + imag a * imag b.

Definition complex_wave_packet (x x0 k0 sigma : F) : ComplexType :=
  let dx := x - x0 in
  let gauss := fexp (- dx * dx / (flit 2.0 * sigma * sigma)) in
  let phase := k0 * x in
  {| real := gauss * fcos phase; imag := gauss * fsin phase |}.

Definition complex_exp (phase : F) : ComplexType :=
  {| real := fcos phase; imag := fsin phase |}.

Definition complex_abs (z : ComplexType) : F :=
  fsqrt (complex_abs2 z).

Definition complex_exp_i (theta : F) : ComplexType :=
  {| real := fcos theta; imag := fsin theta |}.

(** *** ShaderUtils.h: the special functions *)

Definition factorial (fuel : nat) (n : Z) : option F :=
  if Z.leb n 1 then Some (flit 1.0)
  else
    for_loop (fun i => Z.leb i n)
             (fun i result => Some (result * of_int i))
             fuel 2%Z (flit 1.0).

(** The three rolling values of the recurrences. *)
Record rolling : Type := mkRolling { r0 : F; r1 : F; r2 : F }.

(** One run of the body of [hermite]'s loop. *)
Definition hermite_step (x : F) (i : Z) (s : rolling) : rolling :=
  let h2 := flit 2.0 * x * r1 s - flit 2.0 * of_int i * r0 s in
  let h0 := r1 s in
  let h1 := h2 in
  {| r0 := h0; r1 := h1; r2 := h2 |}.

Definition hermite (fuel : nat) (n : Z) (x : F) : option F :=
  if Z.eqb n 0 then Some (flit 1.0)
  else if Z.eqb n 1 then Some (flit 2.0 * x)
  else
    s <- for_loop (fun i => Z.ltb i n)
           (fun i s => Some (hermite_step x i s)) fuel 1%Z
           {| r0 := flit 1.0; r1 := flit 2.0 * x; r2 := flit 0.0 |} ;;
    Some (r1 s).

(** One run of the body of [assoc_laguerre]'s loop. *)
Definition laguerre_step (alpha : Z) (x : F) (i : Z) (s : rolling)
  : rolling :=
  let k := of_int i in
  let a := of_int alpha in
  let l2 := ((flit 2.0 * k + flit 1.0 + a - x) * r1 s - (k + a) * r0 s)
            / (k + flit 1.0) in
  let l0 := r1 s in
  let l1 := l2 in
  {| r0 := l0; r1 := l1; r2 := l2 |}.

Definition assoc_laguerre (fuel : nat) (n alpha : Z) (x : F) : option F :=
  if Z.eqb n 0 then Some (flit 1.0)
  else if Z.eqb n 1 then Some (flit 1.0 + of_int alpha - x)
  else
    s <- for_loop (fun i => Z.ltb i n)
           (fun i s => Some (laguerre_step alpha x i s)) fuel 1%Z
           {| r0 := flit 1.0; r1 := flit 1.0 + of_int alpha - x;
              r2 := flit 0.0 |} ;;
    Some (r1 s).

(** *** QuantumWaveFunctions.h *)

Definition free_particle (x k0 sigma t mass hbar : F) : ComplexType :=
  let omega := hbar * k0 * k0 / (flit 2.0 * mass) in
  let sigma_t :=
    sigma * fsqrt (flit 1.0
                   + fpow (hbar * t / (mass * sigma * sigma)) (flit 2.0)) in
  let x0 := flit 0.0 in
  let dx := x - x0 - (hbar * k0 * t / mass) in
  let amplitude :=
    fexp (- dx * dx / (flit 2.0 * sigma_t * sigma_t))
    / fpow (flit 2.0 * M_PI_F * sigma_t * sigma_t) (flit 0.25) in
  let phase1 := k0 * dx in
  let phase2 := fatan2 (hbar * t) (flit 2.0 * mass * sigma * sigma) in
  let phase := phase1 - flit 0.5 * phase2 in
  {| real := amplitude * fcos phase; imag := amplitude * fsin phase |}.

Definition infinite_well (x L : F) (n : Z) (t mass hbar : F) : ComplexType :=
  if (x <? flit 0.0) || (x >? L) then {| real := flit 0.0; imag := flit 0.0 |}
  else
    let amplitude :=
      fsqrt (flit 2.0 / L) * fsin (of_int n * M_PI_F * x / L) in
    let energy :=
      fpow (of_int n * M_PI_F * hbar) (of_int 2) / (flit 2.0 * mass * L * L) in
    let phase := - energy * t / hbar in
    {| real := amplitude * fcos phase; imag := amplitude * fsin phase |}.

Definition harmonic_oscillator (fuel : nat) (x : F) (n : Z)
           (omega t mass hbar : F) : option ComplexType :=
  let alpha := fsqrt (mass * omega / hbar) in
  let xScaled := alpha * x in
  herm <- hermite fuel n xScaled ;;
  fact <- factorial fuel n ;;
  let norm :=
    flit 1.0 / fsqrt (fpow (flit 2.0) (of_int n) * fact * fsqrt M_PI_F)
    * fpow alpha (flit 0.25) in
  let amplitude := norm * herm * fexp (- xScaled * xScaled / flit 2.0) in
  let energy := hbar * omega * (of_int n + flit 0.5) in
  let phase := - energy * t / hbar in
  Some {| real := amplitude * fcos phase; imag := amplitude * fsin phase |}.

Definition hydrogen_atom (fuel : nat) (r : F) (n l : Z) (t hbar : F)
  : option ComplexType :=
  let bohrRadius := flit 5.29177210903e-11 in
  let rydbergEnergy := flit 2.1798723611035e-18 in
  let rho := flit 2.0 * r / (of_int n * bohrRadius) in
  laguerrePoly <-
    assoc_laguerre fuel (Int32.sub (Int32.sub n l) 1)
                   (Int32.add (Int32.mul 2 l) 1) rho ;;
  fact1 <- factorial fuel (Int32.sub (Int32.sub n l) 1) ;;
  fact2 <- factorial fuel (Int32.add n l) ;;
  let norm :=
    fsqrt (fpow (flit 2.0 / (of_int n * bohrRadius)) (of_int 3) * fact1
           / (flit 2.0 * of_int n * fact2)) in
  let radial := norm * fexp (- rho / flit 2.0) * fpow rho (of_int l)
                * laguerrePoly in
  let energy := - rydbergEnergy / of_int (Int32.mul n n) in
  let phase := - energy * t / hbar in
  Some {| real := radial * fcos phase; imag := radial * fsin phase |}.

(** The body of the driver's loop: one read of [position], one evaluation,
    one write to [psi].  The constants [omega = 1.0f], [0.0f], [1.0f], [1.0f]
    are passed as in the source; its unused local [alpha] is left out. *)
Definition driver_body (fuel : nat) (position : buffer F) (n : Z)
           (i : Z) (psi : buffer ComplexType) : option (buffer ComplexType) :=
  let x := position i in
  v <- harmonic_oscillator fuel x n (flit 1.0) (flit 0.0) (flit 1.0)
         (flit 1.0) ;;
  Some (store psi i v).

Definition calculateHarmonicOscillatorState (fuel : nat)
           (psi : buffer ComplexType) (position : buffer F) (n size : Z)
  : option (buffer ComplexType) :=
  for_loop (fun i => Z.ltb i size) (driver_body fuel position n) fuel 0%Z psi.

End Kernels.

Arguments ComplexType F : clear implicits.
Arguments rolling F : clear implicits.

(** ** The exact instance of the float signature

    The operators read as the field operations of [R], the math library as
    the functions it approximates.  [R] has no infinity and no NaN: where the
    C function returns one of them ([pow] of zero to a negative power, of a
    negative base to a fractional power) the real reading returns [0], and no
    statement below evaluates it there. *)

Definition Rltb (a b : R) : bool := if Rlt_dec a b then true else false.

Definition Rpow (x y : R) : R :=
  if Req_EM_T y 0 then 1%R
  else if Rlt_dec 0 x then Rpower x y
  else if Req_EM_T x 0 then 0%R
  else if Req_EM_T y (IZR (Int_part y)) then powerRZ x (Int_part y)
  else 0%R.

Definition Ratan2 (y x : R) : R :=
  if Rlt_dec 0 x then atan (y / x)
  else if Rlt_dec x 0 then
    (if Rle_dec 0 y then atan (y / x) + PI else atan (y / x) - PI)%R
  else if Rlt_dec 0 y then (PI / 2)%R
  else if Rlt_dec y 0 then (- (PI / 2))%R
  else 0%R.

#[export] Instance R_FloatOps : FloatOps R := {|
  fadd := Rplus;
  fsub := Rminus;
  fmul := Rmult;
  fdiv := Rdiv;
  fneg := Ropp;
  flt := Rltb;
  of_int := IZR;
  flit := Q2R
|}.

#[export] Instance R_MathLib : MathLib R := {|
  M_PI_F := PI;
  fsqrt := sqrt;
  fexp := exp;
  fsin := sin;
  fcos := cos;
  fpow := Rpow;
  fatan2 := Ratan2
|}.

(** ** The formulas of the specification *)

Section SpecRecurrences.

Context {F : Type} `{FloatOps F}.
Local Open Scope fl_scope.

(** The spec's associated Laguerre recurrence:
    [L0 = 1], [L1 = 1 + alpha - x] and
    [L_{k+1} = ((2k+1+alpha-x) L_k - (k+alpha) L_{k-1}) / (k+1)]. *)
Fixpoint laguerre_rec (alpha : Z) (x : F) (n : nat) {struct n} : F :=
  match n with
  | O => flit 1.0
  | S k =>
      match k with
      | O => flit 1.0 + of_int alpha - x
      | S k' =>
          let fk := of_int (Z.of_nat k) in
          let a := of_int alpha in
          ((flit 2.0 * fk + flit 1.0 + a - x) * laguerre_rec alpha x k
           - (fk + a) * laguerre_rec alpha x k')
          / (fk + flit 1.0)
      end
  end.

End SpecRecurrences.

Local Open Scope R_scope.

(** The physicists' Hermite polynomial [H_n]. *)
Fixpoint Hermite (n : nat) (x : R) {struct n} : R :=
  match n with
  | O => 1
  | S k =>
      match k with
      | O => 2 * x
      | S k' => 2 * x * Hermite k x - 2 * INR k * Hermite k' x
      end
  end.

(** The spec's harmonic-oscillator amplitude:
    [H_n(xi) exp(-xi^2/2) / sqrt(2^n n! sqrt(pi)) * (m omega / hbar)^(1/4)]
    with [xi = x sqrt(m omega / hbar)]. *)
Definition ho_amplitude_spec (x : R) (n : nat) (omega mass hbar : R) : R :=
  let xi := x * sqrt (mass * omega / hbar) in
  Hermite n xi * exp (- (xi * xi) / 2)
  / sqrt (2 ^ n * INR (fact n) * sqrt PI)
  * Rpower (mass * omega / hbar) (1 / 4).

(** The amplitude the source computes: the last factor is
    [pow(alpha, 0.25)] with [alpha = sqrt(m omega / hbar)]. *)
Definition ho_amplitude_code (x : R) (n : nat) (omega mass hbar : R) : R :=
  let xi := x * sqrt (mass * omega / hbar) in
  Hermite n xi * exp (- (xi * xi) / 2)
  / sqrt (2 ^ n * INR (fact n) * sqrt PI)
  * Rpower (mass * omega / hbar) (1 / 8).

(** The spec's phase of the [n]-th level at time [t]. *)
Definition ho_phase_spec (n : nat) (omega t hbar : R) : R :=
  - (hbar * omega * (INR n + 1 / 2)) * t / hbar.

(** The spec's static Gaussian of the free particle. *)
Definition gaussian_amplitude_spec (x sigma : R) : R :=
  exp (- (x * x) / (2 * (sigma * sigma)))
  / Rpower (2 * PI * (sigma * sigma)) (1 / 4).

Local Close Scope R_scope.

(** ** The IEEE-754 binary32 instance of the arithmetic

    The operators of [FloatOps] as the standard library specifies them for a
    binary format ([SpecFloat]), at precision 24 and maximal exponent 128,
    rounding to nearest, ties to even. *)

Module Binary32.

Definition prec : Z := 24.
Definition emax : Z := 128.

Definition valid (x : spec_float) : Prop := valid_binary prec emax x = true.

(** Conversion of an integer, rounded. *)
Definition of_Z (z : Z) : spec_float := binary_normalize prec emax z 0 false.

(** An integer as an unrounded dyadic number, for the division below. *)
Definition exact_Z (z : Z) : spec_float :=
  match z with
  | Z0 => S754_zero false
  | Zpos p => S754_finite false p 0
  | Zneg p => S754_finite true p 0
  end.

(** A decimal literal: the quotient of its numerator and denominator,
    rounded once. *)
Definition of_Q (q : Q) : spec_float :=
  SFdiv prec emax (exact_Z (Qnum q)) (exact_Z (Zpos (Qden q))).

End Binary32.

#[export] Instance binary32_FloatOps : FloatOps spec_float := {|
  fadd := SFadd Binary32.prec Binary32.emax;
  fsub := SFsub Binary32.prec Binary32.emax;
  fmul := SFmul Binary32.prec Binary32.emax;
  fdiv := SFdiv Binary32.prec Binary32.emax;
  fneg := SFopp;
  flt := SFltb;
  of_int := Binary32.of_Z;
  flit := Binary32.of_Q
|}.

(** ** Unfolded loops *)

Section Steps.

Variable St : Type.
Variable step : Z -> St -> St.

(** [k] applications of a total loop body to counters [i], [i+1], ... *)
Fixpoint steps (k : nat) (i : Z) (s : St) {struct k} : St :=
  match k with
  | O => s
  | S k' => steps k' (i + 1) (step i s)
  end.

End Steps.

Section LoopStates.

Context {F : Type} `{FloatOps F}.
Local Open Scope fl_scope.

(** The values of [h0], [h1], [h2] when [hermite] enters its loop. *)
Definition hermite_init (x : F) : rolling F :=
  {| r0 := flit 1.0; r1 := flit 2.0 * x; r2 := flit 0.0 |}.

(** The values of [l0], [l1], [l2] when [assoc_laguerre] enters its loop. *)
Definition laguerre_init (alpha : Z) (x : F) : rolling F :=
  {| r0 := flit 1.0; r1 := flit 1.0 + of_int alpha - x; r2 := flit 0.0 |}.

End LoopStates.

(** ** The rest of the shader utilities

    [ShaderUtils.h] also holds the waveform generators and the colour
    conversion; they use [fmod], [fabs], [fract], [clamp] and [mix]. *)

Class ShaderLib (F : Type) : Type := {
  ffmod : F -> F -> F;
  ffabs : F -> F;
  ffract : F -> F;
  fclamp : F -> F -> F -> F;
  fmix : F -> F -> F -> F
}.

Section Waveforms.

Context {F : Type} `{FloatOps F} `{MathLib F} `{ShaderLib F}.
Local Open Scope fl_scope.

Definition sine_wave (phase amplitude : F) : F :=
  amplitude * fsin phase.

Definition square_wave (phase amplitude : F) : F :=
  amplitude * (if ffmod phase (flit 2.0 * M_PI_F) <? M_PI_F
               then flit 1.0 else - flit 1.0).

Definition triangle_wave (phase amplitude : F) : F :=
  let t := ffmod phase (flit 2.0 * M_PI_F) / (flit 2.0 * M_PI_F) in
  amplitude * (flit 2.0 * ffabs (flit 2.0 * t - flit 1.0) - flit 1.0).

Definition sawtooth_wave (phase amplitude : F) : F :=
  let t := ffmod phase (flit 2.0 * M_PI_F) / (flit 2.0 * M_PI_F) in
  amplitude * (flit 2.0 * t - flit 1.0).

(** [float3], with the components the source names [x], [y], [z]. *)
Record float3 : Type := mkFloat3 { vx : F; vy : F; vz : F }.

(** One channel of [hsv2rgb]: [k] is the component of [K.xyz] added to the
    hue; [K.x = 1.0] and [K.w = 3.0]. *)
Definition hsv2rgb_channel (h s v k : F) : F :=
  let Kx := flit 1.0 in
  let Kw := flit 3.0 in
  let p := ffabs (ffract (h + k) * flit 6.0 - Kw) in
  v * fmix Kx (fclamp (p - Kx) (flit 0.0) (flit 1.0)) s.

Definition hsv2rgb (h s v : F) : float3 :=
  {| vx := hsv2rgb_channel h s v (flit 1.0);
     vy := hsv2rgb_channel h s v (flit 2.0 / flit 3.0);
     vz := hsv2rgb_channel h s v (flit 1.0 / flit 3.0) |}.

End Waveforms.

Arguments float3 F : clear implicits.

(** ** Utils/ComplexUtils.h: the host-side complex type *)

Module Utils.

Section Host.

Context {F : Type} `{FloatOps F} `{MathLib F}.
Local Open Scope fl_scope.

Record Complex : Type := mkHostComplex { re : F; im : F }.

Definition complex_add (a b : Complex) : Complex :=
  {| re := re a + re b; im := im a + im b |}.

Definition complex_mul (a b : Complex) : Complex :=
  {| re := re a * re b - im a * im b;
     im := re a * im b + im a * re b |}.

Definition complex_abs (a : Complex) : F :=
  fsqrt (re a * re a + im a * im a).

Definition complex_phase (a : Complex) : F :=
  fatan2 (im a) (re a).

Definition complex_exp (phase : F) : Complex :=
  {| re := fcos phase; im := fsin phase |}.

(** [harmonic_oscillator_eigenstate]: the factorial is the [int] one. *)
Definition harmonic_oscillator_eigenstate (fuel : nat) (n : Z)
           (x omega hbar mass : F) : option F :=
  let alpha := fsqrt (mass * omega / hbar) in
  fact <- calc_factorial fuel n ;;
  let prefactor :=
    flit 1.0 / fsqrt (fpow (flit 2.0) (of_int n) * of_int fact) in
  let expterm := fexp (- alpha * x * x / flit 2.0) in
  Some (prefactor * expterm).

End Host.

Arguments Complex F : clear implicits.

End Utils.

(** ** The exact reading of the shader library

    [fmod] truncates the quotient towards zero, [fract] is [x - floor x],
    [clamp] is [min (max x lo) hi] and [mix] is [a + (b - a) t]. *)

Definition Rtrunc (r : R) : Z :=
  if Rle_dec 0 r then Int_part r else (- Int_part (- r))%Z.

Definition Rfmod (x y : R) : R := (x - y * IZR (Rtrunc (x / y)))%R.

Definition Rfract (x : R) : R := (x - IZR (Int_part x))%R.

Definition Rclamp (x lo hi : R) : R := Rmin (Rmax x lo) hi.

Definition Rmix (a b t : R) : R := (a + (b - a) * t)%R.

#[export] Instance R_ShaderLib : ShaderLib R := {|
  ffmod := Rfmod;
  ffabs := Rabs;
  ffract := Rfract;
  fclamp := Rclamp;
  fmix := Rmix
|}.

(** ** Reference values *)

(** [n!] as an integer. *)
Fixpoint zfact (n : nat) {struct n} : Z :=
  match n with
  | O => 1
  | S k => Z.of_nat (S k) * zfact k
  end.

(** The [n]-th stationary state of the oscillator in natural units,
    [H_n(x) exp(-x^2/2) / sqrt(2^n n! sqrt(pi))]. *)
Definition ho_natural (n : nat) (x : R) : R :=
  (Hermite n x * exp (- (x * x) / 2) / sqrt (2 ^ n * INR (fact n) * sqrt PI))%R.

(** The width of the free packet at time [t]. *)
Definition packet_width (sigma t mass hbar : R) : R :=
  (sigma * sqrt (1 + (hbar * t / (mass * sigma * sigma))
                     * (hbar * t / (mass * sigma * sigma))))%R.

(** ** The free particle in binary32

    On the device the value of [free_particle] is decided by the binary32
    operators and by the math library.  The library is not part of the
    repository: what is stated for binary32 assumes of it only special
    values that the C standard fixes (Annex F), collected in
    [libm_exact_values] and [libm_nan_values]. *)

(** A positive number of the format: finite, not zero, sign bit clear. *)
Definition binary32_positive (x : spec_float) : bool :=
  match x with
  | S754_finite false _ _ => valid_binary Binary32.prec Binary32.emax x
  | _ => false
  end.

(** A zero or a finite number: neither an infinity nor NaN. *)
Definition binary32_finite (x : spec_float) : bool :=
  match x with
  | S754_zero _ | S754_finite _ _ _ => true
  | _ => false
  end.

(** Sign bit clear and not NaN: [+0], a positive number or [+infinity]. *)
Definition binary32_nonneg (x : spec_float) : bool :=
  match x with
  | S754_zero false | S754_infinity false | S754_finite false _ _ => true
  | _ => false
  end.

(** The exact values of the math library that [free_particle] meets at
    [t = 0]: [sqrt(1) = 1], [pow(+0, 2) = +0], and [atan2(+0, x) = +0] for
    [x] of positive sign. *)
Record libm_exact_values (M : MathLib spec_float) : Prop := {
  sqrt_one : fsqrt (flit 1.0) = flit 1.0;
  pow_zero_two : fpow (S754_zero false) (flit 2.0) = S754_zero false;
  atan2_zero : forall x, binary32_nonneg x = true ->
               fatan2 (S754_zero false) x = S754_zero false
}.

(** NaN in gives NaN out, for [sqrt], [exp], and [pow] with an exponent
    that is a finite number other than zero. *)
Record libm_nan_values (M : MathLib spec_float) : Prop := {
  sqrt_nan : fsqrt S754_nan = S754_nan;
  exp_nan : fexp S754_nan = S754_nan;
  pow_nan : forall s m e, fpow S754_nan (S754_finite s m e) = S754_nan
}.

Section FreeParticleSpec.

Context {F : Type} `{FloatOps F} `{MathLib F}.
Local Open Scope fl_scope.

(** The spec's value of the free particle at [t = 0], computed in the
    arithmetic of the code: the static Gaussian
    [exp(-x^2 / (2 sigma^2)) / (2 pi sigma^2)^(1/4)] at the phase [k0 * x],
    with the operators grouped as the source groups them. *)
Definition free_particle_initial_spec (x k0 sigma : F) : ComplexType F :=
  let amplitude :=
    fexp (- x * x / (flit 2.0 * sigma * sigma))
    / fpow (flit 2.0 * M_PI_F * sigma * sigma) (flit 0.25) in
  let phase := k0 * x in
  {| real := amplitude * fcos phase; imag := amplitude * fsin phase |}.

End FreeParticleSpec.

(** ** A math library for binary32

    [sqrt] is the correctly rounded square root of the format.  The other
    functions return the special values of Annex F of the C standard and,
    on the remaining arguments, the exact real result rounded to the
    format.  It shows that [libm_exact_values] and [libm_nan_values] can be
    met; no statement depends on the accuracy it has elsewhere. *)

Module Libm32.

Definition one : spec_float := S754_finite false 8388608 (-23).

(** The real number a finite value of the format stands for. *)
Definition to_R (x : spec_float) : R :=
  match x with
  | S754_finite s m e =>
      ((if s then -1 else 1) * IZR (Zpos m) * powerRZ 2 e)%R
  | _ => 0%R
  end.

(** A real number rounded to the format, to nearest: the exponent is that
    of the 24-digit mantissa, not below the smallest one of the format. *)
Definition of_R (r : R) : spec_float :=
  let a := Rabs r in
  let e := Z.max (Int_part (ln a / ln 2) - 23) (-149) in
  let m := Int_part (a * powerRZ 2 (- e) + / 2) in
  if Rlt_dec r 0
  then binary_normalize Binary32.prec Binary32.emax (- m) e true
  else binary_normalize Binary32.prec Binary32.emax m e false.

Definition sign_bit (x : spec_float) : bool :=
  match x with
  | S754_zero s | S754_infinity s | S754_finite s _ _ => s
  | S754_nan => false
  end.

Definition with_sign (s : bool) (x : spec_float) : spec_float :=
  if s then SFopp x else x.

(** A finite value that is an integer, and one that is an odd integer. *)
Definition integer (y : spec_float) : bool :=
  match y with
  | S754_finite _ m (Zneg p) => Zpos m mod 2 ^ Zpos p =? 0
  | S754_finite _ _ _ => true
  | _ => false
  end.

Definition odd_integer (y : spec_float) : bool :=
  match y with
  | S754_finite _ m Z0 => Z.odd (Zpos m)
  | S754_finite _ m (Zneg p) =>
      (Zpos m mod 2 ^ Zpos p =? 0) && Z.odd (Zpos m / 2 ^ Zpos p)
  | _ => false
  end.

Definition sqrt (x : spec_float) : spec_float :=
  SFsqrt Binary32.prec Binary32.emax x.

Definition exp (x : spec_float) : spec_float :=
  match x with
  | S754_nan => S754_nan
  | S754_zero _ => one
  | S754_infinity true => S754_zero false
  | S754_infinity false => x
  | S754_finite _ _ _ => of_R (Rtrigo_def.exp (to_R x))
  end.

Definition sin (x : spec_float) : spec_float :=
  match x with
  | S754_zero _ => x
  | S754_finite _ _ _ => of_R (Rtrigo_def.sin (to_R x))
  | _ => S754_nan
  end.

Definition cos (x : spec_float) : spec_float :=
  match x with
  | S754_zero _ => one
  | S754_finite _ _ _ => of_R (Rtrigo_def.cos (to_R x))
  | _ => S754_nan
  end.

(** [pow(x, +-0)] and [pow(1, y)] are [1] even at NaN; then NaN gives NaN;
    then the zeros and infinities; a negative base with a fractional
    exponent gives NaN. *)
Definition pow (x y : spec_float) : spec_float :=
  match y with
  | S754_zero _ => one
  | _ =>
      if SFeqb x one then one
      else
        match x, y with
        | S754_nan, _ | _, S754_nan => S754_nan
        | S754_zero sx, _ =>
            if sign_bit y
            then S754_infinity (sx && odd_integer y)
            else S754_zero (sx && odd_integer y)
        | S754_finite _ _ _, S754_infinity sy =>
            match SFcompare (SFabs x) one with
            | Some Eq => one
            | Some Lt => if sy then S754_infinity false else S754_zero false
            | _ => if sy then S754_zero false else S754_infinity false
            end
        | S754_infinity sx, _ =>
            if sign_bit y
            then S754_zero (sx && odd_integer y)
            else S754_infinity (sx && odd_integer y)
        | S754_finite sx _ _, _ =>
            if sx && negb (integer y) then S754_nan
            else of_R (Rpow (to_R x) (to_R y))
        end
  end.

Definition atan2 (y x : spec_float) : spec_float :=
  match y, x with
  | S754_nan, _ | _, S754_nan => S754_nan
  | S754_zero sy, _ =>
      if sign_bit x then with_sign sy (of_R PI) else y
  | S754_infinity sy, S754_infinity sx =>
      with_sign sy (of_R (if sx then 3 * PI / 4 else PI / 4))
  | S754_infinity sy, _ => with_sign sy (of_R (PI / 2))
  | S754_finite sy _ _, S754_zero _ => with_sign sy (of_R (PI / 2))
  | S754_finite sy _ _, S754_infinity sx =>
      if sx then with_sign sy (of_R PI) else S754_zero sy
  | S754_finite _ _ _, S754_finite _ _ _ =>
      of_R (Ratan2 (to_R y) (to_R x))
  end.

End Libm32.

(** [M_PI_F] is the literal of [QuantumWaveFunctions.h]. *)
Definition binary32_MathLib : MathLib spec_float := {|
  M_PI_F := flit 3.14159265358979323846;
  fsqrt := Libm32.sqrt;
  fexp := Libm32.exp;
  fsin := Libm32.sin;
  fcos := Libm32.cos;
  fpow := Libm32.pow;
  fatan2 := Libm32.atan2
|}.

(* ================================================================== *)
(** * Part II: properties *)
(* ================================================================== *)

Unset Implicit Arguments.

(** ** 32-bit arithmetic *)

Lemma wrap_in_range (z : Z) : Int32.in_range (Int32.wrap z).
Proof.
  unfold Int32.in_range, Int32.wrap, Int32.min_signed, Int32.max_signed,
    Int32.modulus.
  pose proof (Z.mod_pos_bound (z - -2147483648) 4294967296 ltac:(lia)).
  lia.
Qed.

Lemma wrap_small (z : Z) : Int32.in_range z -> Int32.wrap z = z.
Proof.
  unfold Int32.in_range, Int32.wrap, Int32.min_signed, Int32.max_signed,
    Int32.modulus.
  intros Hz. rewrite Z.mod_small by lia. lia.
Qed.

Lemma add_1_small (i : Z) :
  Int32.min_signed <= i < Int32.max_signed -> Int32.add i 1 = i + 1.
Proof.
  intros Hi. unfold Int32.add. apply wrap_small.
  unfold Int32.in_range. lia.
Qed.

(** ** The loop combinator *)

Section ForLoopFacts.

Variable St : Type.
Variable cond : Z -> bool.
Variable body : Z -> St -> option St.

Lemma for_loop_exit (fuel : nat) (i : Z) (s : St) :
  cond i = false -> for_loop cond body fuel i s = Some s.
Proof. intros Hc. destruct fuel; simpl; rewrite Hc; reflexivity. Qed.

(** A loop whose condition holds on [i, i+k) and fails at [i+k], with a
    counter that stays below [INT_MAX], is [k] runs of its body. *)
Lemma for_loop_iterate (k : nat) :
  forall (fuel : nat) (i : Z) (s : St),
    (k <= fuel)%nat ->
    Int32.min_signed <= i ->
    i + Z.of_nat k <= Int32.max_signed ->
    (forall j, i <= j < i + Z.of_nat k -> cond j = true) ->
    cond (i + Z.of_nat k) = false ->
    for_loop cond body fuel i s = iterate body k i s.
Proof.
  induction k as [|k IH]; intros fuel i s Hfuel Hlo Hhi Htrue Hfalse.
  - simpl. apply for_loop_exit. now rewrite Z.add_0_r in Hfalse.
  - destruct fuel as [|fuel]; [lia|].
    simpl. rewrite (Htrue i) by lia.
    unfold bind. destruct (body i s) as [s'|]; [|reflexivity].
    rewrite add_1_small by lia.
    apply IH; try lia.
    + intros j Hj. apply Htrue. lia.
    + replace (i + 1 + Z.of_nat k) with (i + Z.of_nat (S k)) by lia.
      exact Hfalse.
Qed.

(** A loop whose condition holds for every 32-bit counter never leaves. *)
Lemma for_loop_diverges (fuel : nat) :
  forall (i : Z) (s : St),
    (forall j, Int32.in_range j -> cond j = true) ->
    Int32.in_range i ->
    for_loop cond body fuel i s = None.
Proof.
  induction fuel as [|fuel IH]; intros i s Hc Hi; simpl;
    rewrite (Hc i Hi); [reflexivity|].
  destruct (body i s) as [s'|]; [|reflexivity].
  apply IH; [exact Hc|]. apply wrap_in_range.
Qed.

(** With fewer units of fuel than the loop has runs to make, and a body that
    always returns, the loop is still running when the fuel is spent. *)
Lemma for_loop_short (fuel : nat) :
  forall (k : nat) (i : Z) (s : St),
    (fuel < k)%nat ->
    Int32.min_signed <= i ->
    i + Z.of_nat k <= Int32.max_signed ->
    (forall j, i <= j < i + Z.of_nat k -> cond j = true) ->
    (forall j t, body j t <> None) ->
    for_loop cond body fuel i s = None.
Proof.
  induction fuel as [|fuel IH]; intros k i s Hk Hlo Hhi Htrue Htotal;
    simpl; rewrite (Htrue i) by lia; [reflexivity|].
  destruct (body i s) as [s'|] eqn:Hb; [|reflexivity].
  rewrite add_1_small by lia.
  apply (IH (pred k)); try lia; [|exact Htotal].
  intros j Hj. apply Htrue. lia.
Qed.

Lemma iterate_snoc (k : nat) :
  forall (i : Z) (s : St),
    iterate body (S k) i s =
    (s' <- iterate body k i s ;; body (i + Z.of_nat k) s').
Proof.
  induction k as [|k IH]; intros i s.
  - simpl. rewrite Z.add_0_r. unfold bind.
    destruct (body i s); reflexivity.
  - change (iterate body (S (S k)) i s)
      with (s' <- body i s ;; iterate body (S k) (i + 1) s').
    change (iterate body (S k) i s)
      with (s' <- body i s ;; iterate body k (i + 1) s').
    unfold bind at 1 3. destruct (body i s) as [s'|]; [|reflexivity].
    rewrite IH. replace (i + 1 + Z.of_nat k) with (i + Z.of_nat (S k)) by lia.
    reflexivity.
Qed.

End ForLoopFacts.

Section StepsFacts.

Variable St : Type.
Variable step : Z -> St -> St.

Lemma iterate_steps (k : nat) :
  forall (i : Z) (s : St),
    iterate (fun j t => Some (step j t)) k i s = Some (steps step k i s).
Proof.
  induction k as [|k IH]; intros i s; simpl; [reflexivity|apply IH].
Qed.

Lemma steps_snoc (k : nat) :
  forall (i : Z) (s : St),
    steps step (S k) i s = step (i + Z.of_nat k) (steps step k i s).
Proof.
  induction k as [|k IH]; intros i s.
  - simpl. now rewrite Z.add_0_r.
  - change (steps step (S (S k)) i s)
      with (steps step (S k) (i + 1) (step i s)).
    rewrite IH. simpl steps.
    replace (i + 1 + Z.of_nat k) with (i + Z.of_nat (S k)) by lia.
    reflexivity.
Qed.

(** The counted loop [for (i = lo; i < n; i++)]. *)
Lemma for_loop_lt (fuel : nat) (lo n : Z) (s : St) :
  Int32.in_range lo -> Int32.in_range n ->
  (Z.to_nat (n - lo) <= fuel)%nat ->
  for_loop (fun i => Z.ltb i n) (fun j t => Some (step j t)) fuel lo s
  = Some (steps step (Z.to_nat (n - lo)) lo s).
Proof.
  intros Hlo Hn Hfuel. unfold Int32.in_range in *.
  rewrite <- iterate_steps.
  destruct (Z.le_gt_cases lo n) as [Hle|Hgt].
  - apply for_loop_iterate; try lia.
    apply Z.ltb_ge. lia.
  - replace (Z.to_nat (n - lo)) with O by lia. simpl.
    apply for_loop_exit. apply Z.ltb_ge. lia.
Qed.

(** The counted loop [for (i = lo; i <= n; i++)], below [INT_MAX]. *)
Lemma for_loop_le (fuel : nat) (lo n : Z) (s : St) :
  Int32.in_range lo -> n < Int32.max_signed ->
  (Z.to_nat (n + 1 - lo) <= fuel)%nat ->
  for_loop (fun i => Z.leb i n) (fun j t => Some (step j t)) fuel lo s
  = Some (steps step (Z.to_nat (n + 1 - lo)) lo s).
Proof.
  intros Hlo Hn Hfuel. unfold Int32.in_range in *.
  rewrite <- iterate_steps.
  destruct (Z.le_gt_cases lo (n + 1)) as [Hle|Hgt].
  - apply for_loop_iterate; try lia.
    apply Z.leb_gt. lia.
  - replace (Z.to_nat (n + 1 - lo)) with O by lia. simpl.
    apply for_loop_exit. apply Z.leb_gt. lia.
Qed.

End StepsFacts.

(** ** The special functions, for every arithmetic *)

Section SpecialFunctions.

Context {F : Type} `{FloatOps F}.
Local Open Scope fl_scope.

Lemma factorial_le_1 (fuel : nat) (n : Z) :
  (n <= 1)%Z -> factorial fuel n = Some (flit 1.0).
Proof.
  intros Hn. unfold factorial.
  destruct (Z.leb_spec n 1); [reflexivity|lia].
Qed.

Lemma factorial_steps (fuel : nat) (n : Z) :
  (2 <= n < Int32.max_signed)%Z ->
  (Z.to_nat (n - 1) <= fuel)%nat ->
  factorial fuel n
  = Some (steps (fun i result => result * of_int i) (Z.to_nat (n - 1)) 2
                (flit 1.0)).
Proof.
  intros Hn Hfuel. unfold factorial.
  destruct (Z.leb_spec n 1); [lia|].
  replace (n - 1)%Z with (n + 1 - 2)%Z in * by lia.
  apply for_loop_le; try lia.
  unfold Int32.in_range, Int32.min_signed, Int32.max_signed. lia.
Qed.

Lemma factorial_INT_MAX (fuel : nat) :
  factorial fuel Int32.max_signed = None.
Proof.
  unfold factorial. simpl (Z.leb Int32.max_signed 1).
  apply for_loop_diverges.
  - intros j Hj. apply Z.leb_le. apply Hj.
  - unfold Int32.in_range, Int32.min_signed, Int32.max_signed. lia.
Qed.

Lemma hermite_steps (fuel : nat) (n : Z) (x : F) :
  (1 <= n <= Int32.max_signed)%Z ->
  (Z.to_nat (n - 1) <= fuel)%nat ->
  hermite fuel n x
  = Some (r1 (steps (hermite_step x) (Z.to_nat (n - 1)) 1 (hermite_init x))).
Proof.
  intros Hn Hfuel. unfold hermite.
  destruct (Z.eqb_spec n 0); [lia|].
  destruct (Z.eqb_spec n 1) as [->|Hn1]; [reflexivity|].
  fold (hermite_init x).
  rewrite for_loop_lt; [reflexivity| | |exact Hfuel];
    unfold Int32.in_range, Int32.min_signed, Int32.max_signed in *; lia.
Qed.

Lemma hermite_below_2 (fuel : nat) (n : Z) (x : F) :
  (n < 0)%Z -> hermite fuel n x = Some (flit 2.0 * x).
Proof.
  intros Hn. unfold hermite.
  destruct (Z.eqb_spec n 0); [lia|].
  destruct (Z.eqb_spec n 1); [lia|].
  rewrite for_loop_exit; [reflexivity|]. apply Z.ltb_ge. lia.
Qed.

Lemma hermite_steps_r0 (x : F) (k : nat) :
  r0 (steps (hermite_step x) (S k) 1 (hermite_init x))
  = r1 (steps (hermite_step x) k 1 (hermite_init x)).
Proof. rewrite steps_snoc. reflexivity. Qed.

Lemma hermite_steps_r1 (x : F) (k : nat) :
  r1 (steps (hermite_step x) (S k) 1 (hermite_init x))
  = flit 2.0 * x * r1 (steps (hermite_step x) k 1 (hermite_init x))
    - flit 2.0 * of_int (1 + Z.of_nat k)
      * r0 (steps (hermite_step x) k 1 (hermite_init x)).
Proof. rewrite steps_snoc. reflexivity. Qed.

Lemma assoc_laguerre_steps (fuel : nat) (n alpha : Z) (x : F) :
  (1 <= n <= Int32.max_signed)%Z ->
  (Z.to_nat (n - 1) <= fuel)%nat ->
  assoc_laguerre fuel n alpha x
  = Some (r1 (steps (laguerre_step alpha x) (Z.to_nat (n - 1)) 1
                    (laguerre_init alpha x))).
Proof.
  intros Hn Hfuel. unfold assoc_laguerre.
  destruct (Z.eqb_spec n 0); [lia|].
  destruct (Z.eqb_spec n 1) as [->|Hn1]; [reflexivity|].
  fold (laguerre_init alpha x).
  rewrite for_loop_lt; [reflexivity| | |exact Hfuel];
    unfold Int32.in_range, Int32.min_signed, Int32.max_signed in *; lia.
Qed.

Lemma assoc_laguerre_below_2 (fuel : nat) (n alpha : Z) (x : F) :
  (n < 0)%Z ->
  assoc_laguerre fuel n alpha x = Some (flit 1.0 + of_int alpha - x).
Proof.
  intros Hn. unfold assoc_laguerre.
  destruct (Z.eqb_spec n 0); [lia|].
  destruct (Z.eqb_spec n 1); [lia|].
  rewrite for_loop_exit; [reflexivity|]. apply Z.ltb_ge. lia.
Qed.

(** After [k] runs the rolling pair holds [L_k] and [L_{k+1}]. *)
Lemma laguerre_steps_rec (alpha : Z) (x : F) (k : nat) :
  r0 (steps (laguerre_step alpha x) k 1 (laguerre_init alpha x))
  = laguerre_rec alpha x k
  /\ r1 (steps (laguerre_step alpha x) k 1 (laguerre_init alpha x))
     = laguerre_rec alpha x (S k).
Proof.
  induction k as [|k [IH0 IH1]]; [split; reflexivity|].
  rewrite steps_snoc. split.
  - exact IH1.
  - unfold laguerre_step at 1. cbn [r1 r0]. rewrite IH0, IH1.
    replace (1 + Z.of_nat k)%Z with (Z.of_nat (S k)) by lia.
    reflexivity.
Qed.

(** The loop of [hermite] makes exactly [n - 1] runs: less fuel is not
    enough. *)
Lemma hermite_needs_fuel (fuel : nat) (n : Z) (x : F) :
  (2 <= n <= Int32.max_signed)%Z ->
  (fuel < Z.to_nat (n - 1))%nat ->
  hermite fuel n x = None.
Proof.
  intros Hn Hfuel. unfold hermite.
  destruct (Z.eqb_spec n 0); [lia|].
  destruct (Z.eqb_spec n 1); [lia|].
  rewrite (for_loop_short _ _ _ fuel (Z.to_nat (n - 1))); try reflexivity;
    try assumption; unfold Int32.min_signed, Int32.max_signed in *; try lia.
  intros j t. discriminate.
Qed.

(** The two calls [hydrogen_atom] makes with the degree [n - l - 1] when
    [l >= n]: the degree is negative, [assoc_laguerre] returns its second
    seed and [factorial] returns [1.0]. *)
Lemma hydrogen_atom_invalid_l (fuel : nat) (n l : Z) (rho : F) :
  (0 <= n <= l)%Z -> (l < 1073741824)%Z ->
  assoc_laguerre fuel (Int32.sub (Int32.sub n l) 1)
                 (Int32.add (Int32.mul 2 l) 1) rho
  = Some (flit 1.0 + of_int (2 * l + 1) - rho)
  /\ factorial fuel (Int32.sub (Int32.sub n l) 1) = Some (flit 1.0).
Proof.
  intros Hn Hl.
  assert (Hdeg : Int32.sub (Int32.sub n l) 1 = (n - l - 1)%Z).
  { unfold Int32.sub.
    rewrite (wrap_small (n - l)); [apply wrap_small|];
      unfold Int32.in_range, Int32.min_signed, Int32.max_signed; lia. }
  assert (Halpha : Int32.add (Int32.mul 2 l) 1 = (2 * l + 1)%Z).
  { unfold Int32.add, Int32.mul.
    rewrite (wrap_small (2 * l)); [apply wrap_small|];
      unfold Int32.in_range, Int32.min_signed, Int32.max_signed; lia. }
  rewrite Hdeg, Halpha. split.
  - apply assoc_laguerre_below_2. lia.
  - apply factorial_le_1. lia.
Qed.

End SpecialFunctions.

(** ** Recurrences and negative degrees *)

(** C3. [hermite(0,x)] is [1], [hermite(1,x)] is [2x], and for every
    [n >= 1] such that [n+1] is an [int], the value returned for [n+1] is
    [2x * hermite(n,x) - 2n * hermite(n-1,x)]: the iteratively computed
    values satisfy the three-term recurrence of the physicists' Hermite
    polynomials, seeded with [H0 = 1] and [H1 = 2x].  All three calls return
    within [n] runs of the loop body. *)
Theorem hermite_recurrence {F : Type} `{FloatOps F}
        (fuel : nat) (n : Z) (x : F) :
  (1 <= n < Int32.max_signed)%Z ->
  (Z.to_nat n <= fuel)%nat ->
  hermite fuel 0 x = Some (flit 1.0)
  /\ hermite fuel 1 x = Some (flit 2.0 * x)%fl
  /\ exists hn hn1 : F,
      hermite fuel n x = Some hn
      /\ hermite fuel (n - 1) x = Some hn1
      /\ hermite fuel (n + 1) x
         = Some (flit 2.0 * x * hn - flit 2.0 * of_int n * hn1)%fl.
Proof.
  intros Hn Hfuel.
  split; [reflexivity|]. split; [reflexivity|].
  exists (r1 (steps (hermite_step x) (Z.to_nat (n - 1)) 1 (hermite_init x))).
  exists (r0 (steps (hermite_step x) (Z.to_nat (n - 1)) 1 (hermite_init x))).
  split; [apply hermite_steps; lia|]. split.
  - destruct (Z.eq_dec n 1) as [->|Hn1]; [reflexivity|].
    rewrite hermite_steps by lia.
    replace (Z.to_nat (n - 1)) with (S (Z.to_nat (n - 1 - 1))) by lia.
    now rewrite hermite_steps_r0.
  - rewrite hermite_steps by lia.
    replace (Z.to_nat (n + 1 - 1)) with (S (Z.to_nat (n - 1))) by lia.
    rewrite hermite_steps_r1.
    replace (1 + Z.of_nat (Z.to_nat (n - 1)))%Z with n by lia.
    reflexivity.
Qed.

Lemma hermite_recurrence_witness :
  (1 <= 3 < Int32.max_signed)%Z
  /\ (Z.to_nat 3 <= 3)%nat
  /\ exists hn hn1 : spec_float,
      hermite 3 3 (flit 1.5) = Some hn
      /\ hermite 3 (3 - 1) (flit 1.5) = Some hn1
      /\ hermite 3 (3 + 1) (flit 1.5)
         = Some (flit 2.0 * flit 1.5 * hn - flit 2.0 * of_int 3 * hn1)%fl.
Proof.
  split; [unfold Int32.max_signed; lia|]. split; [simpl; lia|].
  apply (hermite_recurrence (F:=spec_float) 3%nat 3%Z (flit 1.5)).
  - unfold Int32.max_signed; lia.
  - simpl; lia.
Defined.

(** C4. [assoc_laguerre(0,alpha,x)] is [1], [assoc_laguerre(1,alpha,x)] is
    [1 + alpha - x], and for every [n >= 1] the returned value is the [n]-th
    term of the recurrence
    [L_{k+1} = ((2k+1+alpha-x) L_k - (k+alpha) L_{k-1}) / (k+1)]
    started from those two seeds; the call returns within [n-1] runs of the
    loop body. *)
Theorem assoc_laguerre_recurrence {F : Type} `{FloatOps F}
        (fuel : nat) (n alpha : Z) (x : F) :
  (1 <= n <= Int32.max_signed)%Z ->
  (Z.to_nat (n - 1) <= fuel)%nat ->
  assoc_laguerre fuel 0 alpha x = Some (flit 1.0)
  /\ assoc_laguerre fuel 1 alpha x = Some (flit 1.0 + of_int alpha - x)%fl
  /\ assoc_laguerre fuel n alpha x = Some (laguerre_rec alpha x (Z.to_nat n)).
Proof.
  intros Hn Hfuel.
  split; [reflexivity|]. split; [reflexivity|].
  rewrite assoc_laguerre_steps by assumption.
  replace (Z.to_nat n) with (S (Z.to_nat (n - 1))) by lia.
  f_equal. apply laguerre_steps_rec.
Qed.

Lemma assoc_laguerre_recurrence_witness :
  (1 <= 4 <= Int32.max_signed)%Z
  /\ (Z.to_nat (4 - 1) <= 3)%nat
  /\ assoc_laguerre (F:=spec_float) 3 4 2 (flit 0.75)
     = Some (laguerre_rec 2 (flit 0.75) (Z.to_nat 4)).
Proof.
  split; [unfold Int32.max_signed; lia|]. split; [simpl; lia|].
  apply (assoc_laguerre_recurrence (F:=spec_float) 3%nat 4%Z 2%Z (flit 0.75)).
  - unfold Int32.max_signed; lia.
  - simpl; lia.
Defined.

(** C9. For every negative [n], [factorial(n)] returns [1.0] and
    [calc_factorial(n)] returns [1], whatever the fuel: neither loop body
    runs. *)
Theorem factorial_negative {F : Type} `{FloatOps F} (fuel : nat) (n : Z) :
  (n < 0)%Z ->
  factorial fuel n = Some (flit 1.0) /\ calc_factorial fuel n = Some 1%Z.
Proof.
  intros Hn. split.
  - apply factorial_le_1. lia.
  - unfold calc_factorial. apply for_loop_exit. apply Z.leb_gt. lia.
Qed.

Lemma factorial_negative_witness :
  (-7 < 0)%Z
  /\ factorial (F:=spec_float) 0 (-7) = Some (flit 1.0)
  /\ calc_factorial 0 (-7) = Some 1%Z.
Proof.
  split; [lia|]. apply (factorial_negative (F:=spec_float) 0%nat (-7)%Z). lia.
Defined.

(** C10. For every negative [n], [hermite(n,x)] returns [2x] and
    [assoc_laguerre(n,alpha,x)] returns [1 + alpha - x], whatever the fuel:
    the loop body does not run and the second seed is returned. *)
Theorem negative_degree {F : Type} `{FloatOps F}
        (fuel : nat) (n alpha : Z) (x : F) :
  (n < 0)%Z ->
  hermite fuel n x = Some (flit 2.0 * x)%fl
  /\ assoc_laguerre fuel n alpha x = Some (flit 1.0 + of_int alpha - x)%fl.
Proof.
  intros Hn. split.
  - now apply hermite_below_2.
  - now apply assoc_laguerre_below_2.
Qed.

Lemma negative_degree_witness :
  (-2 < 0)%Z
  /\ hermite (F:=spec_float) 0 (-2) (flit 0.5) = Some (flit 2.0 * flit 0.5)%fl
  /\ assoc_laguerre (F:=spec_float) 0 (-2) 5 (flit 0.5)
     = Some (flit 1.0 + of_int 5 - flit 0.5)%fl.
Proof.
  split; [lia|].
  apply (negative_degree (F:=spec_float) 0%nat (-2)%Z 5%Z (flit 0.5)). lia.
Defined.

(** ** The infinite well, for every arithmetic *)

Section Evaluators.

Context {F : Type} `{FloatOps F} `{MathLib F}.
Local Open Scope fl_scope.

(** C2. For every [L > 0], every [n], [t], [mass], [hbar] and every [x]
    with [x < 0] or [x > L], [infinite_well] returns the complex value
    [(0.0, 0.0)]: the value of the guard's own [return], an ordinary
    result.  The assumption on [L] is not used: the guard does
    not look at the sign of [L]. *)
Theorem infinite_well_outside (x L : F) (n : Z) (t mass hbar : F) :
  (L >? flit 0.0) = true ->
  (x <? flit 0.0) = true \/ (x >? L) = true ->
  infinite_well x L n t mass hbar = {| real := flit 0.0; imag := flit 0.0 |}.
Proof.
  intros _ Hout. unfold infinite_well.
  destruct Hout as [Hx|Hx]; rewrite Hx.
  - reflexivity.
  - rewrite orb_true_r. reflexivity.
Qed.

End Evaluators.

(** ** The exact arithmetic *)

Lemma flit_R_0 : flit (F:=R) 0.0 = 0%R.
Proof. unfold flit, R_FloatOps, Q2R. simpl. lra. Qed.

Lemma flit_R_1 : flit (F:=R) 1.0 = 1%R.
Proof. unfold flit, R_FloatOps, Q2R. simpl. lra. Qed.

Lemma flit_R_2 : flit (F:=R) 2.0 = 2%R.
Proof. unfold flit, R_FloatOps, Q2R. simpl. lra. Qed.

Lemma flit_R_quarter : flit (F:=R) 0.25 = (/ 4)%R.
Proof. unfold flit, R_FloatOps, Q2R. simpl. lra. Qed.

Lemma flit_R_half : flit (F:=R) 0.5 = (/ 2)%R.
Proof. unfold flit, R_FloatOps, Q2R. simpl. lra. Qed.

Lemma flit_R_minus_1 : flit (F:=R) (-1) = (- 1)%R.
Proof. unfold flit, R_FloatOps, Q2R. simpl. lra. Qed.

Lemma Rltb_true (a b : R) : Rltb a b = true <-> (a < b)%R.
Proof.
  unfold Rltb. destruct (Rlt_dec a b); split; intros; try assumption;
    try reflexivity; try discriminate; contradiction.
Qed.

Lemma infinite_well_outside_witness :
  (flit (F:=R) 1.0 >? flit 0.0)%fl = true
  /\ ((flit (F:=R) (-0.1) <? flit 0.0)%fl = true
      \/ (flit (F:=R) (-0.1) >? flit 1.0)%fl = true)
  /\ infinite_well (flit (-0.1)) (flit 1.0) 1 (flit 0.0) (flit 1.0) (flit 1.0)
     = {| real := flit (F:=R) 0.0; imag := flit 0.0 |}.
Proof.
  assert (H1 : (flit (F:=R) 1.0 >? flit 0.0)%fl = true).
  { apply Rltb_true. rewrite flit_R_0, flit_R_1. lra. }
  assert (H2 : (flit (F:=R) (-0.1) <? flit 0.0)%fl = true
               \/ (flit (F:=R) (-0.1) >? flit 1.0)%fl = true).
  { left. apply Rltb_true. rewrite flit_R_0.
    unfold flit, R_FloatOps, Q2R. simpl. lra. }
  split; [exact H1|]. split; [exact H2|].
  exact (infinite_well_outside (flit (-0.1)) (flit 1.0) 1 (flit 0.0)
           (flit 1.0) (flit 1.0) H1 H2).
Defined.

(** ** The binary32 arithmetic *)

Lemma binary32_minus_1 :
  flit (F:=spec_float) (-1) = S754_finite true 8388608 (-23).
Proof. reflexivity. Qed.

(** Multiplying a value of the format by [-1] is exact: it flips the sign. *)
Lemma binary32_mul_minus_1 (x : spec_float) :
  Binary32.valid x -> (x * flit (-1))%fl = (- x)%fl.
Proof.
  intros Hx. rewrite binary32_minus_1.
  destruct x as [s|s| |s m e]; try (destruct s; reflexivity);
    try reflexivity.
  unfold Binary32.valid, valid_binary, bounded, canonical_mantissa in Hx.
  apply andb_true_iff in Hx. destruct Hx as [Hcan Hmax].
  apply Z.eqb_eq in Hcan. apply Z.leb_le in Hmax.
  unfold fmul, fneg, binary32_FloatOps, SFmul, SFopp.
  rewrite Pos.mul_comm.
  change (8388608 * m)%positive with
    (m~0~0~0~0~0~0~0~0~0~0~0~0~0~0~0~0~0~0~0~0~0~0~0)%positive.
  unfold binary_round_aux.
  assert (Hd : Zdigits2
                 (Z.pos (m~0~0~0~0~0~0~0~0~0~0~0~0~0~0~0~0~0~0~0~0~0~0~0))
               = Z.pos (digits2_pos m) + 23).
  { cbn [Zdigits2 digits2_pos]. rewrite !Pos2Z.inj_succ. lia. }
  unfold shr_fexp at 1. rewrite Hd.
  replace (Z.pos (digits2_pos m) + 23 + (e + -23))
    with (Z.pos (digits2_pos m) + e) by lia.
  rewrite Hcan.
  replace (e - (e + -23)) with 23 by lia.
  cbn [shr shr_record_of_loc].
  cbn [iter_pos shr_1 orb].
  cbn [shr_m loc_of_shr_record round_nearest_even shr_r shr_s].
  unfold shr_fexp. cbn [Zdigits2].
  replace (e + -23 + 23) with e by lia.
  rewrite Hcan, Z.sub_diag. cbn [shr shr_m shr_record_of_loc].
  destruct (Z.leb_spec e (Binary32.emax - Binary32.prec)); [|lia].
  destruct s; reflexivity.
Qed.

(** Off NaN, the comparison [==] of the format holds between a value and
    itself. *)
Lemma binary32_eqb_refl (x : spec_float) :
  x <> S754_nan -> SFeqb x x = true.
Proof.
  intros Hx. unfold SFeqb, SFcompare.
  destruct x as [s|s| |s m e]; try (destruct s; reflexivity);
    [contradiction|].
  destruct s; rewrite Z.compare_refl, Pos.compare_cont_refl; reflexivity.
Qed.

(** The literal [0.0] is the positive zero of the format. *)
Example binary32_zero_literal : flit (F:=spec_float) 0.0 = S754_zero false.
Proof. reflexivity. Qed.

(** The special functions run in binary32: [factorial(0)], [factorial(1)]
    and [factorial(5)]; [H_3(2) = 40], reached with two runs of the loop and
    not with one; [13!] wraps in [calc_factorial]; [35!] overflows to
    infinity. *)
Example factorial_0_1_5 :
  factorial (F:=spec_float) 4 0 = Some (of_int 1)
  /\ factorial (F:=spec_float) 4 1 = Some (of_int 1)
  /\ factorial (F:=spec_float) 4 5 = Some (of_int 120).
Proof. repeat split. Qed.

Example hermite_3_at_2 :
  hermite (F:=spec_float) 2 3 (flit 2.0) = Some (of_int 40)
  /\ hermite (F:=spec_float) 1 3 (flit 2.0) = None.
Proof. split; reflexivity. Qed.

Example calc_factorial_13_wraps : calc_factorial 12 13 = Some 1932053504.
Proof. reflexivity. Qed.

Example factorial_35_overflows :
  factorial (F:=spec_float) 34 35 = Some (S754_infinity false).
Proof. vm_compute. reflexivity. Qed.

(** The comparison [==] of the format is not reflexive on NaN. *)
Example nan_is_not_eqb : SFeqb S754_nan S754_nan = false.
Proof. reflexivity. Qed.

(** ** The complex algebra *)

(** C7. Multiplying by [i] twice is scaling by [-1], component by
    component: for every complex value over the reals, and for every
    complex value whose components are values of the binary32 format
    (zeros of either sign, finite numbers, infinities, NaN). *)
Theorem complex_mul_i_twice (zr : ComplexType R) (zf : ComplexType spec_float) :
  Binary32.valid (real zf) ->
  Binary32.valid (imag zf) ->
  complex_mul_i (complex_mul_i zr) = complex_scale zr (flit (-1))
  /\ complex_mul_i (complex_mul_i zf) = complex_scale zf (flit (-1)).
Proof.
  intros Hre Him. split.
  - destruct zr as [re im]. unfold complex_mul_i, complex_scale.
    cbn [real imag].
    rewrite flit_R_minus_1. f_equal; simpl; lra.
  - destruct zf as [re im]. unfold complex_mul_i, complex_scale.
    cbn [real imag] in *.
    now rewrite !binary32_mul_minus_1.
Qed.

(** With the comparison [==] of the format in place of equality, the same
    holds whenever no component is NaN. *)
Lemma complex_mul_i_twice_eqb (z : ComplexType spec_float) :
  Binary32.valid (real z) -> Binary32.valid (imag z) ->
  real z <> S754_nan -> imag z <> S754_nan ->
  SFeqb (real (complex_mul_i (complex_mul_i z)))
        (real (complex_scale z (flit (-1)))) = true
  /\ SFeqb (imag (complex_mul_i (complex_mul_i z)))
           (imag (complex_scale z (flit (-1)))) = true.
Proof.
  intros Hre Him Hre' Him'. destruct z as [re im].
  unfold complex_mul_i, complex_scale. cbn [real imag] in *.
  rewrite !binary32_mul_minus_1 by assumption.
  split; apply binary32_eqb_refl.
  - destruct re; try discriminate. contradiction.
  - destruct im; try discriminate. contradiction.
Qed.

Lemma complex_mul_i_twice_witness :
  Binary32.valid (flit (F:=spec_float) 0.1)
  /\ Binary32.valid (S754_infinity true)
  /\ complex_mul_i (complex_mul_i {| real := 3%R; imag := (-4)%R |})
     = complex_scale {| real := 3%R; imag := (-4)%R |} (flit (-1))
  /\ complex_mul_i
       (complex_mul_i {| real := flit 0.1; imag := S754_infinity true |})
     = complex_scale {| real := flit 0.1; imag := S754_infinity true |}
                     (flit (-1)).
Proof.
  split; [reflexivity|]. split; [reflexivity|].
  apply (complex_mul_i_twice {| real := 3%R; imag := (-4)%R |}
           {| real := flit 0.1; imag := S754_infinity true |});
    reflexivity.
Defined.

(** ** The evaluators in exact arithmetic *)

Local Open Scope R_scope.

Ltac real_ops :=
  rewrite ?flit_R_0, ?flit_R_1, ?flit_R_2, ?flit_R_quarter, ?flit_R_half;
  cbn [fadd fsub fmul fdiv fneg flt of_int fsqrt fexp fsin fcos fpow fatan2
       M_PI_F R_FloatOps R_MathLib].

Lemma Rpow_pos (x y : R) : 0 < x -> y <> 0 -> Rpow x y = Rpower x y.
Proof.
  intros Hx Hy. unfold Rpow.
  destruct (Req_EM_T y 0); [contradiction|].
  destruct (Rlt_dec 0 x); [reflexivity|contradiction].
Qed.

Lemma Rpow_0_l (y : R) : 0 < y -> Rpow 0 y = 0.
Proof.
  intros Hy. unfold Rpow.
  destruct (Req_EM_T y 0); [lra|].
  destruct (Rlt_dec 0 0); [lra|].
  destruct (Req_EM_T 0 0); [reflexivity|lra].
Qed.

Lemma Rpow_0_r (x : R) : Rpow x 0 = 1.
Proof. unfold Rpow. destruct (Req_EM_T 0 0); [reflexivity|lra]. Qed.

Lemma Ratan2_0_pos (x : R) : 0 < x -> Ratan2 0 x = 0.
Proof.
  intros Hx. unfold Ratan2. destruct (Rlt_dec 0 x); [|contradiction].
  unfold Rdiv. rewrite Rmult_0_l. apply atan_0.
Qed.

(** In exact arithmetic [free_particle] at [t = 0] is the static Gaussian
    at the phase [k0 * x], for all positive [sigma], [mass] and [hbar]:
    the width [sigma_t] is [sigma], the drift is [0] and the [atan2]
    correction is [0]. *)
Lemma free_particle_initial_exact (x k0 sigma mass hbar : R) :
  0 < sigma -> 0 < mass -> 0 < hbar ->
  free_particle x k0 sigma 0 mass hbar
  = {| real := gaussian_amplitude_spec x sigma * cos (k0 * x);
       imag := gaussian_amplitude_spec x sigma * sin (k0 * x) |}.
Proof.
  intros Hsigma Hmass Hhbar.
  unfold free_particle. real_ops.
  assert (Hw : hbar * 0 / (mass * sigma * sigma) = 0) by (unfold Rdiv; ring).
  assert (Hd : x - 0 - hbar * k0 * 0 / mass = x) by (unfold Rdiv; ring).
  rewrite Hw, Hd, Rpow_0_l, Rplus_0_r, sqrt_1, Rmult_1_r by lra.
  rewrite Rmult_0_r, Ratan2_0_pos by (repeat apply Rmult_lt_0_compat; lra).
  rewrite Rmult_0_r, Rminus_0_r.
  rewrite Rpow_pos; [| |lra].
  - unfold gaussian_amplitude_spec.
    replace (- x * x / (2 * sigma * sigma))
      with (- (x * x) / (2 * (sigma * sigma))) by (field; lra).
    replace (2 * PI * sigma * sigma) with (2 * PI * (sigma * sigma)) by ring.
    replace (/ 4) with (1 / 4) by lra.
    reflexivity.
  - pose proof PI_RGT_0.
    apply Rmult_lt_0_compat; [apply Rmult_lt_0_compat|]; lra.
Qed.

(** Over the reals [free_particle_initial_spec] is the static Gaussian
    [gaussian_amplitude_spec] at the phase [k0 * x]. *)
Lemma free_particle_initial_spec_exact (x k0 sigma : R) :
  0 < sigma ->
  free_particle_initial_spec x k0 sigma
  = {| real := gaussian_amplitude_spec x sigma * cos (k0 * x);
       imag := gaussian_amplitude_spec x sigma * sin (k0 * x) |}.
Proof.
  intros Hsigma. unfold free_particle_initial_spec. real_ops. cbv zeta.
  rewrite Rpow_pos; [| |lra].
  - unfold gaussian_amplitude_spec.
    replace (- x * x / (2 * sigma * sigma))
      with (- (x * x) / (2 * (sigma * sigma))) by (field; lra).
    replace (2 * PI * sigma * sigma) with (2 * PI * (sigma * sigma)) by ring.
    replace (/ 4) with (1 / 4) by lra.
    reflexivity.
  - pose proof PI_RGT_0.
    apply Rmult_lt_0_compat; [apply Rmult_lt_0_compat|]; lra.
Qed.

(** After [k] runs the rolling pair holds [H_k] and [H_{k+1}]. *)
Lemma hermite_steps_Hermite (x : R) (k : nat) :
  r0 (steps (hermite_step x) k 1 (hermite_init x)) = Hermite k x
  /\ r1 (steps (hermite_step x) k 1 (hermite_init x)) = Hermite (S k) x.
Proof.
  induction k as [|k [IH0 IH1]].
  - unfold hermite_init. cbn [steps r0 r1 Hermite]. real_ops.
    split; reflexivity.
  - rewrite steps_snoc. split; [exact IH1|].
    unfold hermite_step at 1. cbn [r1 r0]. rewrite IH0, IH1. real_ops.
    change (Hermite (S (S k)) x)
      with (2 * x * Hermite (S k) x - 2 * INR (S k) * Hermite k x).
    rewrite (INR_IZR_INZ (S k)).
    replace (1 + Z.of_nat k)%Z with (Z.of_nat (S k)) by lia.
    reflexivity.
Qed.

Lemma hermite_exact (fuel : nat) (n : Z) (x : R) :
  (0 <= n <= Int32.max_signed)%Z ->
  (Z.to_nat (n - 1) <= fuel)%nat ->
  hermite fuel n x = Some (Hermite (Z.to_nat n) x).
Proof.
  intros Hn Hfuel.
  destruct (Z.eq_dec n 0) as [->|Hn0].
  - unfold hermite. cbn [Z.eqb Z.to_nat Hermite]. now rewrite flit_R_1.
  - rewrite hermite_steps by lia.
    replace (Z.to_nat n) with (S (Z.to_nat (n - 1))) by lia.
    f_equal. apply hermite_steps_Hermite.
Qed.

Lemma factorial_steps_fact (k : nat) :
  steps (fun (i : Z) (result : R) => (result * of_int i)%fl) k 2 (flit 1.0)
  = INR (fact (S k)).
Proof.
  induction k as [|k IH].
  - cbn [steps fact Nat.mul Nat.add]. rewrite flit_R_1. reflexivity.
  - rewrite steps_snoc, IH. real_ops.
    change (fact (S (S k))) with (S (S k) * fact (S k))%nat.
    rewrite mult_INR, (INR_IZR_INZ (S (S k))).
    replace (2 + Z.of_nat k)%Z with (Z.of_nat (S (S k))) by lia.
    ring.
Qed.

Lemma factorial_exact (fuel : nat) (n : Z) :
  (0 <= n < Int32.max_signed)%Z ->
  (Z.to_nat (n - 1) <= fuel)%nat ->
  factorial fuel n = Some (INR (fact (Z.to_nat n))).
Proof.
  intros Hn Hfuel.
  destruct (Z.le_gt_cases n 1) as [Hle|Hgt].
  - rewrite factorial_le_1 by assumption. rewrite flit_R_1.
    assert (Hc : n = 0%Z \/ n = 1%Z) by lia.
    destruct Hc as [-> | ->]; reflexivity.
  - rewrite factorial_steps by lia.
    rewrite factorial_steps_fact.
    replace (S (Z.to_nat (n - 1))) with (Z.to_nat n) by lia.
    reflexivity.
Qed.

Lemma Rpow_2_int (n : Z) : (0 <= n)%Z -> Rpow 2 (IZR n) = 2 ^ Z.to_nat n.
Proof.
  intros Hn. destruct (Z.eq_dec n 0) as [->|Hn0].
  - apply Rpow_0_r.
  - rewrite Rpow_pos; [|lra|].
    + rewrite <- (Z2Nat.id n) at 1 by assumption.
      rewrite <- INR_IZR_INZ. apply Rpower_pow. lra.
    + intros Hc. apply eq_IZR in Hc. contradiction.
Qed.

Lemma Rpow_sqrt_quarter (u : R) :
  0 < u -> Rpow (sqrt u) (/ 4) = Rpower u (1 / 8).
Proof.
  intros Hu. rewrite Rpow_pos; [| now apply sqrt_lt_R0 | lra].
  rewrite <- Rpower_sqrt by assumption.
  rewrite Rpower_mult. f_equal. lra.
Qed.

Lemma harmonic_oscillator_exact (fuel : nat) (x : R) (n : Z)
      (omega t mass hbar : R) :
  (0 <= n < Int32.max_signed)%Z ->
  (Z.to_nat (n - 1) <= fuel)%nat ->
  0 < omega -> 0 < mass -> 0 < hbar ->
  harmonic_oscillator fuel x n omega t mass hbar
  = Some {| real := ho_amplitude_code x (Z.to_nat n) omega mass hbar
                    * cos (ho_phase_spec (Z.to_nat n) omega t hbar);
            imag := ho_amplitude_code x (Z.to_nat n) omega mass hbar
                    * sin (ho_phase_spec (Z.to_nat n) omega t hbar) |}.
Proof.
  intros Hn Hfuel Homega Hmass Hhbar.
  unfold harmonic_oscillator.
  rewrite hermite_exact, factorial_exact by lia.
  cbn [bind]. real_ops.
  assert (Hu : 0 < mass * omega / hbar).
  { apply Rdiv_lt_0_compat; [apply Rmult_lt_0_compat|]; assumption. }
  rewrite Rpow_2_int, Rpow_sqrt_quarter by (assumption || lia).
  assert (Hphase : - (hbar * omega * (IZR n + / 2)) * t / hbar
                   = ho_phase_spec (Z.to_nat n) omega t hbar).
  { unfold ho_phase_spec. rewrite INR_IZR_INZ, Z2Nat.id by lia.
    replace (1 / 2) with (/ 2) by lra. reflexivity. }
  rewrite Hphase.
  assert (Hamp :
    1 / sqrt (2 ^ Z.to_nat n * INR (fact (Z.to_nat n)) * sqrt PI)
    * Rpower (mass * omega / hbar) (1 / 8)
    * Hermite (Z.to_nat n) (sqrt (mass * omega / hbar) * x)
    * exp (- (sqrt (mass * omega / hbar) * x)
           * (sqrt (mass * omega / hbar) * x) / 2)
    = ho_amplitude_code x (Z.to_nat n) omega mass hbar).
  { unfold ho_amplitude_code. cbv zeta.
    rewrite (Rmult_comm x (sqrt (mass * omega / hbar))).
    replace (- (sqrt (mass * omega / hbar) * x)
             * (sqrt (mass * omega / hbar) * x) / 2)
      with (- (sqrt (mass * omega / hbar) * x
               * (sqrt (mass * omega / hbar) * x)) / 2) by lra.
    field. apply Rgt_not_eq. apply sqrt_lt_R0.
    apply Rmult_lt_0_compat; [apply Rmult_lt_0_compat|].
    - apply pow_lt. lra.
    - apply INR_fact_lt_0.
    - apply sqrt_lt_R0. apply PI_RGT_0. }
  rewrite Hamp. reflexivity.
Qed.

(** C1. At [x = 0], [n = 0], [omega = 16], [t = 0], [mass = 1], [hbar = 1]
    the evaluator returns a value whose real part is the amplitude with the
    factor [(m omega / hbar)^(1/8)], which the source computes as
    [pow(alpha, 0.25)] with [alpha = sqrt(m omega / hbar)], times the cosine of
    the spec's phase; it is not the spec's amplitude, whose factor is
    [(m omega / hbar)^(1/4)], times that cosine. *)
Theorem harmonic_oscillator_normalisation (fuel : nat) :
  exists z : ComplexType R,
    harmonic_oscillator fuel 0 0 16 0 1 1 = Some z
    /\ real z = ho_amplitude_code 0 0 16 1 1 * cos (ho_phase_spec 0 16 0 1)
    /\ real z <> ho_amplitude_spec 0 0 16 1 1 * cos (ho_phase_spec 0 16 0 1).
Proof.
  eexists. split; [|split].
  - apply (harmonic_oscillator_exact fuel 0 0 16 0 1 1);
      try lra; unfold Int32.max_signed; lia.
  - reflexivity.
  - cbn [real Z.to_nat].
    assert (Hphase : ho_phase_spec 0 16 0 1 = 0).
    { unfold ho_phase_spec. simpl INR. lra. }
    rewrite Hphase, cos_0, !Rmult_1_r.
    unfold ho_amplitude_code, ho_amplitude_spec. cbv zeta.
    cbn [Hermite pow fact INR].
    rewrite !Rmult_0_l, Rmult_1_l, Ropp_0.
    replace (0 / 2) with 0 by lra.
    rewrite exp_0.
    assert (Hs : 0 < sqrt (1 * 1 * sqrt PI)).
    { apply sqrt_lt_R0. rewrite !Rmult_1_l. apply sqrt_lt_R0, PI_RGT_0. }
    assert (Hlt : Rpower (1 * 16 / 1) (1 / 8) < Rpower (1 * 16 / 1) (1 / 4)).
    { apply Rpower_lt; lra. }
    intros Heq.
    apply Rmult_eq_reg_l in Heq; [lra|].
    apply Rgt_not_eq. apply Rdiv_lt_0_compat; lra.
Qed.

Local Close Scope R_scope.

(** ** Termination of the loops *)

Section Termination.

Context {F : Type} `{FloatOps F}.

(** Below [INT_MAX] the three special functions return, and the loop body
    runs at most [max(n-1, 0)] times. *)
Lemma special_functions_return (n alpha : Z) (x : F) :
  Int32.in_range n ->
  (exists h, hermite (Z.to_nat (n - 1)) n x = Some h)
  /\ (exists l, assoc_laguerre (Z.to_nat (n - 1)) n alpha x = Some l)
  /\ (n < Int32.max_signed ->
      exists f, factorial (Z.to_nat (n - 1)) n = Some f).
Proof.
  intros Hn. unfold Int32.in_range in Hn.
  destruct (Z.lt_ge_cases n 1) as [Hlt|Hge].
  - assert (Hc : n < 0 \/ n = 0) by lia. repeat split.
    + destruct Hc as [Hc| ->]; [|eexists; reflexivity].
      eexists. now apply hermite_below_2.
    + destruct Hc as [Hc| ->]; [|eexists; reflexivity].
      eexists. now apply assoc_laguerre_below_2.
    + intros _. eexists. apply factorial_le_1. lia.
  - repeat split.
    + eexists. apply hermite_steps; lia.
    + eexists. apply assoc_laguerre_steps; lia.
    + intros Hmax. destruct (Z.eq_dec n 1) as [->|Hn1].
      * eexists. apply factorial_le_1. lia.
      * eexists. apply factorial_steps; lia.
Qed.

(** More fuel does not change a result. *)
Lemma special_functions_fuel (fuel : nat) (n alpha : Z) (x : F) :
  Int32.in_range n ->
  (Z.to_nat (n - 1) <= fuel)%nat ->
  hermite fuel n x = hermite (Z.to_nat (n - 1)) n x
  /\ assoc_laguerre fuel n alpha x = assoc_laguerre (Z.to_nat (n - 1)) n alpha x
  /\ (n < Int32.max_signed ->
      factorial fuel n = factorial (Z.to_nat (n - 1)) n).
Proof.
  intros Hn Hfuel. unfold Int32.in_range in Hn.
  destruct (Z.lt_ge_cases n 1) as [Hlt|Hge].
  - assert (Hc : n < 0 \/ n = 0) by lia. repeat split.
    + destruct Hc as [Hc| ->]; [|reflexivity].
      now rewrite !hermite_below_2.
    + destruct Hc as [Hc| ->]; [|reflexivity].
      now rewrite !assoc_laguerre_below_2.
    + intros _. now rewrite !factorial_le_1 by lia.
  - repeat split.
    + now rewrite !hermite_steps by lia.
    + now rewrite !assoc_laguerre_steps by lia.
    + intros Hmax. destruct (Z.eq_dec n 1) as [->|Hn1].
      * now rewrite !factorial_le_1 by lia.
      * now rewrite !factorial_steps by lia.
Qed.

(** C8. At [n = INT_MAX] the loop of [factorial] does not leave: its
    condition [i <= n] holds for every 32-bit counter, so no number of runs
    of the body is enough. *)
Theorem factorial_no_exit (fuel : nat) :
  factorial (F:=F) fuel 2147483647 = None.
Proof.
  unfold factorial.
  destruct (Z.leb_spec 2147483647 1) as [Hle|_]; [lia|].
  apply for_loop_diverges.
  - intros j Hj. apply Z.leb_le.
    unfold Int32.in_range, Int32.max_signed in Hj. lia.
  - unfold Int32.in_range, Int32.min_signed, Int32.max_signed. lia.
Qed.

End Termination.

(** ** The field-evaluation driver *)

Lemma store_same {A : Type} (m : buffer A) (i : Z) (v : A) :
  store m i v i = v.
Proof. unfold store. now rewrite Z.eqb_refl. Qed.

Lemma store_other {A : Type} (m : buffer A) (i j : Z) (v : A) :
  j <> i -> store m i v j = m j.
Proof.
  intros Hj. unfold store.
  destruct (Z.eqb_spec j i); [contradiction|reflexivity].
Qed.

Lemma contents_length {A : Type} (m : buffer A) (size : Z) :
  length (contents m size) = Z.to_nat size.
Proof. unfold contents. now rewrite length_map, length_seq. Qed.

Lemma Forall2_map_pointwise {A B : Type} (R : A -> B -> Prop)
      (f : nat -> A) (g : nat -> B) (l : list nat) :
  (forall k, In k l -> R (f k) (g k)) -> Forall2 R (map f l) (map g l).
Proof.
  induction l as [|k l IH]; intros Hl; simpl; constructor.
  - apply Hl. now left.
  - apply IH. intros j Hj. apply Hl. now right.
Qed.

Section Driver.

Context {F : Type} `{FloatOps F} `{MathLib F}.

Lemma harmonic_oscillator_returns (fuel : nat) (x : F) (n : Z)
      (omega t mass hbar : F) :
  Int32.min_signed <= n < Int32.max_signed ->
  (Z.to_nat (n - 1) <= fuel)%nat ->
  exists v, harmonic_oscillator fuel x n omega t mass hbar = Some v.
Proof.
  intros Hn Hfuel.
  assert (Hr : Int32.in_range n) by (unfold Int32.in_range; lia).
  unfold harmonic_oscillator.
  set (xScaled := (fsqrt (mass * omega / hbar) * x)%fl).
  destruct (special_functions_fuel fuel n 0 xScaled Hr Hfuel) as (Hh & _ & Hf).
  destruct (special_functions_return n 0 xScaled Hr) as ((h & Hh') & _ & Hf').
  destruct (Hf' (proj2 Hn)) as (f & Hf'').
  rewrite Hh, Hh', (Hf (proj2 Hn)), Hf''. cbn [bind].
  eexists. reflexivity.
Qed.

Lemma harmonic_oscillator_INT_MAX (fuel : nat) (x omega t mass hbar : F) :
  harmonic_oscillator fuel x Int32.max_signed omega t mass hbar = None.
Proof.
  unfold harmonic_oscillator.
  destruct (hermite fuel Int32.max_signed _) as [herm|]; [|reflexivity].
  cbn [bind]. now rewrite factorial_INT_MAX.
Qed.

(** [k] runs of the driver's body fill the cells [0 .. k-1] and no other. *)
Lemma driver_iterate (fuel : nat) (position : buffer F) (n : Z)
      (psi : buffer (ComplexType F)) (k : nat) :
  Int32.min_signed <= n < Int32.max_signed ->
  (Z.to_nat (n - 1) <= fuel)%nat ->
  exists psi' : buffer (ComplexType F),
    iterate (driver_body fuel position n) k 0 psi = Some psi'
    /\ (forall i, 0 <= i < Z.of_nat k ->
        harmonic_oscillator fuel (position i) n (flit 1.0) (flit 0.0)
                            (flit 1.0) (flit 1.0) = Some (psi' i))
    /\ (forall j, ~ 0 <= j < Z.of_nat k -> psi' j = psi j).
Proof.
  intros Hn Hfuel. induction k as [|k (psi_k & Hrun & Hin & Hout)].
  - exists psi. split; [reflexivity|]. split; [lia|reflexivity].
  - destruct (harmonic_oscillator_returns fuel (position (Z.of_nat k)) n
                (flit 1.0) (flit 0.0) (flit 1.0) (flit 1.0) Hn Hfuel)
      as (v & Hv).
    exists (store psi_k (Z.of_nat k) v).
    split; [|split].
    + rewrite iterate_snoc, Hrun. cbn [bind]. unfold driver_body.
      rewrite Z.add_0_l, Hv. reflexivity.
    + intros i Hi. destruct (Z.eq_dec i (Z.of_nat k)) as [->|Hik].
      * now rewrite store_same.
      * rewrite store_other by assumption. apply Hin. lia.
    + intros j Hj. rewrite store_other by lia. apply Hout. lia.
Qed.

(** Below [INT_MAX] the driver returns; cell [i] of the output, for
    [0 <= i < size], holds the evaluator's value at cell [i] of the input,
    with [omega = 1], [t = 0], [mass = 1], [hbar = 1]; every other cell
    keeps its content. *)
Lemma driver_index_correspondence (fuel : nat) (psi : buffer (ComplexType F))
      (position : buffer F) (n size : Z) :
  Int32.min_signed <= n < Int32.max_signed ->
  0 <= size <= Int32.max_signed ->
  (Z.to_nat (n - 1) <= fuel)%nat ->
  (Z.to_nat size <= fuel)%nat ->
  exists psi' : buffer (ComplexType F),
    calculateHarmonicOscillatorState fuel psi position n size = Some psi'
    /\ length (contents psi' size) = Z.to_nat size
    /\ Forall2 (fun x v =>
                  harmonic_oscillator fuel x n (flit 1.0) (flit 0.0)
                                      (flit 1.0) (flit 1.0) = Some v)
               (contents position size) (contents psi' size)
    /\ (forall i, 0 <= i < size ->
        harmonic_oscillator fuel (position i) n (flit 1.0) (flit 0.0)
                            (flit 1.0) (flit 1.0) = Some (psi' i))
    /\ (forall j, ~ 0 <= j < size -> psi' j = psi j).
Proof.
  intros Hn Hsize Hfuel_n Hfuel_size.
  destruct (driver_iterate fuel position n psi (Z.to_nat size) Hn Hfuel_n)
    as (psi' & Hrun & Hin & Hout).
  rewrite Z2Nat.id in Hin, Hout by lia.
  exists psi'. split; [|split; [apply contents_length|split; [|split]]];
    try assumption.
  - unfold calculateHarmonicOscillatorState. rewrite <- Hrun.
    apply for_loop_iterate; unfold Int32.min_signed in *; try lia.
    apply Z.ltb_ge. lia.
  - unfold contents.
    apply (Forall2_map_pointwise _ (fun k => position (Z.of_nat k))
             (fun k => psi' (Z.of_nat k))).
    intros k Hk. apply in_seq in Hk. apply Hin. lia.
Qed.

(** C6. With [n = INT_MAX] and one position the driver does not return:
    its first call of the evaluator enters [factorial(INT_MAX)], whose loop
    does not leave. *)
Theorem driver_no_exit (fuel : nat) (psi : buffer (ComplexType F))
        (position : buffer F) :
  calculateHarmonicOscillatorState fuel psi position 2147483647 1 = None.
Proof.
  unfold calculateHarmonicOscillatorState.
  destruct fuel as [|fuel]; [reflexivity|].
  cbn [for_loop Z.ltb Z.compare]. unfold driver_body.
  now rewrite (harmonic_oscillator_INT_MAX (S fuel)).
Qed.

End Driver.


(** ** Exact identities of the binary32 arithmetic *)

Lemma binary32_add_comm (x y : spec_float) : (x + y)%fl = (y + x)%fl.
Proof.
  unfold fadd, binary32_FloatOps, SFadd.
  destruct x as [sx|sx| |sx mx ex], y as [sy|sy| |sy my ey];
    try reflexivity; try (destruct sx, sy; reflexivity).
  rewrite (Z.min_comm ex ey), Z.add_comm. reflexivity.
Qed.

Lemma binary32_mul_comm (x y : spec_float) : (x * y)%fl = (y * x)%fl.
Proof.
  unfold fmul, binary32_FloatOps, SFmul.
  destruct x as [sx|sx| |sx mx ex], y as [sy|sy| |sy my ey];
    try reflexivity; try (destruct sx, sy; reflexivity).
  rewrite (Pos.mul_comm mx my), (Z.add_comm ex ey), (xorb_comm sx sy).
  reflexivity.
Qed.

Lemma binary32_neg_involutive (x : spec_float) : (- - x)%fl = x.
Proof.
  destruct x as [s|s| |s m e]; simpl; try rewrite negb_involutive;
    reflexivity.
Qed.

Lemma binary_round_aux_opp (s : bool) (m e : Z) (l : location) :
  binary_round_aux Binary32.prec Binary32.emax (negb s) m e l
  = SFopp (binary_round_aux Binary32.prec Binary32.emax s m e l).
Proof.
  unfold binary_round_aux.
  destruct (shr_fexp Binary32.prec Binary32.emax m e l) as [mrs' e'].
  destruct (shr_fexp Binary32.prec Binary32.emax
              (round_nearest_even (shr_m mrs') (loc_of_shr_record mrs')) e'
              loc_Exact) as [mrs'' e''].
  destruct (shr_m mrs''); try reflexivity.
  destruct (e'' <=? Binary32.emax - Binary32.prec); reflexivity.
Qed.

Lemma binary32_mul_neg_r (x y : spec_float) : (x * - y)%fl = (- (x * y))%fl.
Proof.
  unfold fmul, fneg, binary32_FloatOps, SFmul.
  destruct x as [sx|sx| |sx mx ex], y as [sy|sy| |sy my ey];
    try reflexivity; try (destruct sx, sy; reflexivity).
  cbn [SFopp]. rewrite <- binary_round_aux_opp. f_equal.
  destruct sx, sy; reflexivity.
Qed.

Lemma binary32_sub_neg (x y : spec_float) : (x - - y)%fl = (x + y)%fl.
Proof.
  unfold fsub, fadd, fneg, binary32_FloatOps, SFsub, SFadd.
  destruct x as [sx|sx| |sx mx ex], y as [sy|sy| |sy my ey];
    try reflexivity; try (destruct sx, sy; reflexivity);
    cbn [SFopp]; rewrite negb_involutive; reflexivity.
Qed.

Lemma binary32_add_neg_self (x : spec_float) :
  (- x + x)%fl = match x with
                 | S754_zero _ | S754_finite _ _ _ => S754_zero false
                 | _ => S754_nan
                 end.
Proof.
  unfold fadd, fneg, binary32_FloatOps, SFadd.
  destruct x as [s|s| |s m e]; try (destruct s; reflexivity); try reflexivity.
  cbn [SFopp]. rewrite Z.min_id. unfold shl_align. rewrite Z.sub_diag.
  cbn [fst].
  replace (cond_Zopp (negb s) (Z.pos m) + cond_Zopp s (Z.pos m)) with 0
    by (destruct s; cbn [negb cond_Zopp]; lia).
  reflexivity.
Qed.

(** ** The free particle at [t = 0] in binary32 *)

Section Binary32Rounding.

Local Open Scope Z_scope.

(** Multiplying a value of the format by [1] is exact. *)
Lemma binary32_mul_1_r (x : spec_float) :
  Binary32.valid x -> (x * flit 1.0)%fl = x.
Proof.
  intros Hx.
  change (flit (F:=spec_float) 1.0) with (- flit (F:=spec_float) (-1))%fl.
  rewrite binary32_mul_neg_r, binary32_mul_minus_1 by assumption.
  apply binary32_neg_involutive.
Qed.

Lemma shr_1_nonneg (mrs : shr_record) :
  0 <= shr_m mrs -> 0 <= shr_m (shr_1 mrs).
Proof.
  destruct mrs as [m r s]. cbn [shr_m]. intros Hm.
  destruct m as [|p|p]; [cbn; lia| |lia].
  destruct p; cbn; lia.
Qed.

Lemma iter_shr_1_nonneg (p : positive) (mrs : shr_record) :
  0 <= shr_m mrs -> 0 <= shr_m (iter_pos shr_1 p mrs).
Proof.
  revert mrs. induction p as [p IH|p IH|]; intros mrs Hm; cbn [iter_pos].
  - apply IH, IH, shr_1_nonneg, Hm.
  - apply IH, IH, Hm.
  - apply shr_1_nonneg, Hm.
Qed.

Lemma shr_fexp_nonneg (m e : Z) (l : location) :
  0 <= m ->
  0 <= shr_m (fst (shr_fexp Binary32.prec Binary32.emax m e l)).
Proof.
  intros Hm. unfold shr_fexp, shr.
  assert (H0 : 0 <= shr_m (shr_record_of_loc m l)).
  { destruct l as [|[ | | ]]; exact Hm. }
  destruct (SpecFloat.fexp Binary32.prec Binary32.emax (Zdigits2 m + e) - e);
    cbn [fst]; [exact H0| |exact H0].
  apply iter_shr_1_nonneg, H0.
Qed.

Lemma round_nearest_even_nonneg (m : Z) (l : location) :
  0 <= m -> 0 <= round_nearest_even m l.
Proof.
  intros Hm. destruct l as [|[ | | ]]; cbn [round_nearest_even]; try lia.
  destruct (Z.even m); lia.
Qed.

(** Rounding a mantissa that is not negative gives a zero, a finite number
    or an infinity, of the sign asked for: never NaN. *)
Lemma binary_round_aux_sign (s : bool) (m e : Z) (l : location) :
  0 <= m ->
  match binary_round_aux Binary32.prec Binary32.emax s m e l with
  | S754_zero s' | S754_infinity s' | S754_finite s' _ _ => s' = s
  | S754_nan => False
  end.
Proof.
  intros Hm. unfold binary_round_aux.
  pose proof (shr_fexp_nonneg m e l Hm) as H1.
  destruct (shr_fexp Binary32.prec Binary32.emax m e l) as [mrs' e'].
  cbn [fst] in H1.
  pose proof (shr_fexp_nonneg
                (round_nearest_even (shr_m mrs') (loc_of_shr_record mrs'))
                e' loc_Exact (round_nearest_even_nonneg _ _ H1)) as H2.
  destruct (shr_fexp Binary32.prec Binary32.emax
              (round_nearest_even (shr_m mrs') (loc_of_shr_record mrs')) e'
              loc_Exact) as [mrs'' e''].
  cbn [fst] in H2.
  destruct (shr_m mrs'') as [|p|p]; [reflexivity| |lia].
  destruct (e'' <=? Binary32.emax - Binary32.prec); reflexivity.
Qed.

(** A product of values of positive sign has positive sign: it may round
    to [+0] or to [+infinity], not to NaN. *)
Lemma binary32_mul_nonneg (a b : spec_float) :
  binary32_nonneg a = true -> binary32_positive b = true ->
  binary32_nonneg (a * b)%fl = true.
Proof.
  intros Ha Hb.
  destruct b as [sb|sb| |sb mb eb]; try discriminate.
  destruct sb; [discriminate|].
  destruct a as [sa|sa| |sa ma ea]; try discriminate;
    destruct sa; try discriminate; try reflexivity.
  unfold fmul, binary32_FloatOps, SFmul. cbn [xorb].
  pose proof (binary_round_aux_sign false (Z.pos (ma * mb)) (ea + eb)
                loc_Exact ltac:(lia)) as Hs.
  destruct (binary_round_aux Binary32.prec Binary32.emax false
              (Z.pos (ma * mb)) (ea + eb) loc_Exact) as [s|s| |s m e];
    try (subst s; reflexivity). contradiction.
Qed.

Lemma binary_normalize_not_nan (m e : Z) (s : bool) :
  binary_normalize Binary32.prec Binary32.emax m e s <> S754_nan.
Proof.
  unfold binary_normalize, binary_round.
  destruct m as [|p|p]; [discriminate| |].
  - destruct (shl_align p e _) as [mz ez].
    pose proof (binary_round_aux_sign false (Z.pos mz) ez loc_Exact
                  ltac:(lia)) as Hs.
    intros Hc. rewrite Hc in Hs. exact Hs.
  - destruct (shl_align p e _) as [mz ez].
    pose proof (binary_round_aux_sign true (Z.pos mz) ez loc_Exact
                  ltac:(lia)) as Hs.
    intros Hc. rewrite Hc in Hs. exact Hs.
Qed.

(** A finite number divided by anything but NaN is not NaN. *)
Lemma binary32_div_not_nan (s : bool) (m : positive) (e : Z)
      (q : spec_float) :
  q <> S754_nan -> (S754_finite s m e / q)%fl <> S754_nan.
Proof.
  intros Hq. destruct q as [sq|sq| |sq mq eq]; try discriminate;
    [contradiction|].
  unfold fdiv, binary32_FloatOps, SFdiv, SFdiv_core_binary.
  set (m' := match _ - _ - _ with Z.pos _ => _ | _ => _ end).
  assert (Hm' : 0 <= m').
  { unfold m'. destruct (_ - _ - _); try lia.
    apply Z.shiftl_nonneg. lia. }
  pose proof (Z.div_pos m' (Z.pos mq) Hm' ltac:(lia)) as Hdiv.
  unfold Z.div in Hdiv.
  destruct (Z.div_eucl m' (Z.pos mq)) as [qu re]. cbn [fst] in Hdiv.
  pose proof (binary_round_aux_sign (xorb s sq) qu
                (Z.min (SpecFloat.fexp Binary32.prec Binary32.emax
                          (Zdigits2 (Z.pos m) + e
                           - (Zdigits2 (Z.pos mq) + eq))) (e - eq))
                (new_location (Z.pos mq) re) Hdiv) as Hs.
  intros Hc. rewrite Hc in Hs. exact Hs.
Qed.

(** Anything but NaN multiplied by a finite number is not NaN. *)
Lemma binary32_mul_finite_not_nan (a : spec_float) (s : bool)
      (m : positive) (e : Z) :
  a <> S754_nan -> (a * S754_finite s m e)%fl <> S754_nan.
Proof.
  intros Ha. destruct a as [sa|sa| |sa ma ea]; try discriminate;
    [contradiction|].
  unfold fmul, binary32_FloatOps, SFmul.
  pose proof (binary_round_aux_sign (xorb sa s) (Z.pos (ma * m)) (ea + e)
                loc_Exact ltac:(lia)) as Hs.
  intros Hc. rewrite Hc in Hs. exact Hs.
Qed.

End Binary32Rounding.

Section FreeParticleBinary32.

Variable M : MathLib spec_float.
Hypothesis HE : libm_exact_values M.
Hypothesis HN : libm_nan_values M.

Local Open Scope fl_scope.

(** With positive [sigma], [mass] and [hbar], a product
    [mass * sigma * sigma] that is not rounded to zero and a finite
    [hbar * k0], the value at [t = 0] is the static Gaussian computed with
    [sigma] itself: [sigma_t] is [sigma], [dx] is [x], and the phase is
    [k0 * x]. *)
Lemma free_particle_initial_binary32 (x k0 sigma mass hbar : spec_float) :
  binary32_positive sigma = true ->
  binary32_positive mass = true ->
  binary32_positive hbar = true ->
  x <> S754_zero true ->
  binary32_finite (hbar * k0) = true ->
  (flit 0.0 <? mass * sigma * sigma) = true ->
  free_particle x k0 sigma (flit 0.0) mass hbar
  = free_particle_initial_spec x k0 sigma.
Proof.
  intros Hs Hm Hh Hx Hk Hd.
  change (flit (F:=spec_float) 0.0) with (S754_zero false) in *.
  unfold free_particle, free_particle_initial_spec. cbv zeta.
  change (flit (F:=spec_float) 0.0) with (S754_zero false).
  assert (Hh0 : hbar * S754_zero false = S754_zero false).
  { destruct hbar as [sh|sh| |sh mh eh]; try discriminate.
    destruct sh; [discriminate|reflexivity]. }
  assert (Hw : hbar * S754_zero false / (mass * sigma * sigma)
               = S754_zero false).
  { rewrite Hh0.
    destruct (mass * sigma * sigma) as [sd|sd| |sd md ed];
      try discriminate; destruct sd; try discriminate; reflexivity. }
  rewrite Hw, (pow_zero_two HE).
  change (flit 1.0 + S754_zero false) with (flit (F:=spec_float) 1.0).
  rewrite (sqrt_one HE), binary32_mul_1_r.
  2:{ destruct sigma as [ | | |ss ms es]; try discriminate.
      destruct ss; [discriminate|exact Hs]. }
  assert (Hdx : x - S754_zero false - hbar * k0 * S754_zero false / mass
                = x).
  { destruct mass as [sm|sm| |sm mm em]; try discriminate.
    destruct sm; [discriminate|].
    destruct (hbar * k0) as [sp|sp| |sp mp ep]; try discriminate;
      destruct x as [sx|sx| |sx mx ex]; try reflexivity;
      destruct sp, sx; try reflexivity; contradiction. }
  rewrite Hdx, Hh0, (atan2_zero HE).
  2:{ repeat apply binary32_mul_nonneg; try assumption. reflexivity. }
  change (flit 0.5 * S754_zero false) with (S754_zero false).
  assert (Hz : forall y : spec_float, y - S754_zero false = y).
  { intros y. destruct y as [sy|sy| |sy my ey]; try reflexivity.
    destruct sy; reflexivity. }
  rewrite Hz. reflexivity.
Qed.

(** When [hbar * t / (mass * sigma * sigma)] is NaN, so are the width
    [sigma_t], the amplitude and both components of the result. *)
Lemma free_particle_nan_width (x k0 sigma mass hbar : spec_float) :
  hbar * flit 0.0 / (mass * sigma * sigma) = S754_nan ->
  free_particle x k0 sigma (flit 0.0) mass hbar
  = {| real := S754_nan; imag := S754_nan |}.
Proof.
  intros Hw. unfold free_particle. cbv zeta. rewrite Hw.
  change (flit (F:=spec_float) 2.0) with (S754_finite false 8388608 (-22)).
  rewrite (pow_nan HN).
  assert (Hr : forall y : spec_float, y + S754_nan = S754_nan)
    by (intros y; destruct y; reflexivity).
  assert (Hl : forall y : spec_float, y * S754_nan = S754_nan)
    by (intros y; destruct y; reflexivity).
  assert (Hdv : forall y : spec_float, y / S754_nan = S754_nan)
    by (intros y; destruct y; reflexivity).
  rewrite Hr, (sqrt_nan HN), !Hl.
  change (flit (F:=spec_float) 0.25) with (S754_finite false 8388608 (-25)).
  rewrite (pow_nan HN), Hdv. reflexivity.
Qed.

(** When the drift [hbar * k0 * t / mass] is NaN, so are [dx], the
    amplitude and both components of the result. *)
Lemma free_particle_nan_drift (x k0 sigma mass hbar : spec_float) :
  hbar * k0 * flit 0.0 / mass = S754_nan ->
  free_particle x k0 sigma (flit 0.0) mass hbar
  = {| real := S754_nan; imag := S754_nan |}.
Proof.
  intros Hw. unfold free_particle. cbv zeta. rewrite Hw.
  assert (Hs : forall y : spec_float, y - S754_nan = S754_nan)
    by (intros y; destruct y; reflexivity).
  rewrite Hs. cbn [fneg binary32_FloatOps SFopp].
  change (S754_nan * S754_nan) with S754_nan.
  match goal with
  | |- context [S754_nan / ?d] => change (S754_nan / d) with S754_nan
  end.
  rewrite (exp_nan HN). reflexivity.
Qed.

End FreeParticleBinary32.

(** The library [binary32_MathLib] has the special values. *)
Lemma binary32_MathLib_exact : libm_exact_values binary32_MathLib.
Proof.
  split.
  - vm_compute. reflexivity.
  - vm_compute. reflexivity.
  - intros x Hx. destruct x as [s|s| |s m e]; try discriminate;
      destruct s; try discriminate; reflexivity.
Qed.

Lemma binary32_MathLib_nan : libm_nan_values binary32_MathLib.
Proof.
  split; [reflexivity|reflexivity|].
  intros s m e. reflexivity.
Qed.

(** Some of the special values of [Libm32.pow]. *)
Example pow_special_values :
  Libm32.pow (S754_zero true) (flit 3.0) = S754_zero true
  /\ Libm32.pow (S754_zero true) (flit 2.0) = S754_zero false
  /\ Libm32.pow (S754_zero true) (flit (-3)) = S754_infinity true
  /\ Libm32.pow (S754_zero true) (flit (-0.5)) = S754_infinity false
  /\ Libm32.pow (S754_infinity true) (flit 3.0) = S754_infinity true
  /\ Libm32.pow (S754_infinity true) (flit (-3)) = S754_zero true
  /\ Libm32.pow (S754_infinity true) (flit 2.5) = S754_infinity false
  /\ Libm32.pow (flit (-1)) (S754_infinity true) = Libm32.one
  /\ Libm32.pow (flit 0.5) (S754_infinity true) = S754_infinity false
  /\ Libm32.pow (flit (-2)) (S754_infinity true) = S754_zero false
  /\ Libm32.pow (flit (-2)) (flit 0.5) = S754_nan
  /\ Libm32.pow S754_nan (S754_zero true) = Libm32.one
  /\ Libm32.pow (flit 1.0) S754_nan = Libm32.one
  /\ Libm32.pow S754_nan (flit 1.0) = S754_nan.
Proof. repeat split; vm_compute; reflexivity. Qed.

Lemma of_R_not_nan (r : R) : Libm32.of_R r <> S754_nan.
Proof.
  unfold Libm32.of_R.
  destruct (Rlt_dec r 0); apply binary_normalize_not_nan.
Qed.

Section ReferenceLibrary.

Local Existing Instance binary32_MathLib.

(** The static Gaussian at [x = 0], [k0 = 0] and [sigma = 1e-10], computed
    in binary32 with [binary32_MathLib], is not NaN. *)
Lemma free_particle_initial_spec_not_nan :
  real (free_particle_initial_spec (H0:=binary32_MathLib)
          (flit 0.0) (flit 0.0) (flit 1e-10)) <> S754_nan.
Proof.
  unfold free_particle_initial_spec. cbv zeta. cbn [real].
  change (fcos (flit 0.0 * flit 0.0)%fl) with Libm32.one.
  change (fexp (- flit 0.0 * flit 0.0
                / (flit 2.0 * flit 1e-10 * flit 1e-10))%fl)
    with Libm32.one.
  apply binary32_mul_finite_not_nan, binary32_div_not_nan.
  assert (Hc : (flit 2.0 * M_PI_F * flit 1e-10 * flit 1e-10)%fl
               = S754_finite false 9722759 (-87)).
  { vm_compute. reflexivity. }
  rewrite Hc.
  change (fpow (S754_finite false 9722759 (-87)) (flit 0.25))
    with (Libm32.of_R
            (Rpow (Libm32.to_R (S754_finite false 9722759 (-87)))
                  (Libm32.to_R (S754_finite false 8388608 (-25))))).
  apply of_R_not_nan.
Qed.

End ReferenceLibrary.

Local Open Scope R_scope.

(** C5, amended. [free_particle] at [t = 0] returns
    [amplitude * (cos phase, sin phase)] with
    [amplitude = exp(-x^2 / (2 sigma^2)) / (2 pi sigma^2)^(1/4)] and
    [phase = k0 * x]: the width [sigma_t] is [sigma], the drift is [0] and
    the [atan2] correction is [0].  In exact arithmetic this holds for
    every [x], every [k0] and all positive [sigma], [mass] and [hbar].  In
    binary32 it holds, with amplitude and phase computed in binary32, for
    positive [sigma], [mass] and [hbar] when [mass * sigma * sigma] is not
    rounded to zero and [hbar * k0] is finite, for every [x] but the
    negative zero, and a math library with the special values of
    [libm_exact_values]. *)
Theorem free_particle_initial
        (x k0 sigma mass hbar : R)
        (M : MathLib spec_float) (xf kf sf mf hf : spec_float) :
  0 < sigma -> 0 < mass -> 0 < hbar ->
  libm_exact_values M ->
  binary32_positive sf = true ->
  binary32_positive mf = true ->
  binary32_positive hf = true ->
  xf <> S754_zero true ->
  binary32_finite (hf * kf)%fl = true ->
  (flit 0.0 <? mf * sf * sf)%fl = true ->
  free_particle x k0 sigma 0 mass hbar
  = {| real := gaussian_amplitude_spec x sigma * cos (k0 * x);
       imag := gaussian_amplitude_spec x sigma * sin (k0 * x) |}
  /\ free_particle xf kf sf (flit 0.0) mf hf
     = free_particle_initial_spec xf kf sf.
Proof.
  intros Hsigma Hmass Hhbar HM Hs Hm Hh Hx Hk Hd. split.
  - now apply free_particle_initial_exact.
  - now apply free_particle_initial_binary32.
Qed.

Lemma free_particle_initial_witness :
  libm_exact_values binary32_MathLib
  /\ binary32_positive (flit 2.0) = true
  /\ binary32_positive (flit 3.0) = true
  /\ binary32_positive (flit 1.0) = true
  /\ binary32_finite (flit 1.0 * flit 5.0)%fl = true
  /\ (flit 0.0 <? flit 3.0 * flit 2.0 * flit 2.0)%fl = true
  /\ free_particle (1 / 2) 5 2 0 3 1
     = {| real := gaussian_amplitude_spec (1 / 2) 2 * cos (5 * (1 / 2));
          imag := gaussian_amplitude_spec (1 / 2) 2 * sin (5 * (1 / 2)) |}
  /\ free_particle (H0:=binary32_MathLib)
       (flit 0.5) (flit 5.0) (flit 2.0) (flit 0.0) (flit 3.0) (flit 1.0)
     = free_particle_initial_spec (H0:=binary32_MathLib)
         (flit 0.5) (flit 5.0) (flit 2.0).
Proof.
  split; [exact binary32_MathLib_exact|].
  do 5 (split; [reflexivity|]).
  apply (free_particle_initial (1 / 2) 5 2 3 1 binary32_MathLib
           (flit 0.5) (flit 5.0) (flit 2.0) (flit 3.0) (flit 1.0));
    first [lra | exact binary32_MathLib_exact | reflexivity
          | discriminate].
Defined.

(** C5 as the spec states it fails in binary32.  With the positive
    [sigma = 1e-10], [mass = 9.109e-31] and [hbar = 1.0546e-34] the product
    [mass * sigma * sigma] is rounded to [+0] and [hbar * t / 0] is NaN at
    [t = 0]; with [sigma = mass = 1], [hbar = 2] and [k0 = 3e38] the
    product [hbar * k0] is [+infinity] and the drift
    [hbar * k0 * t / mass] is NaN.  Either way
    both components of the result are NaN, whatever the math library that
    hands NaN on; with [binary32_MathLib] the static Gaussian of the spec
    is not NaN at the first input. *)
Lemma free_particle_initial_out_of_range :
  (binary32_positive (flit 1e-10) = true
   /\ binary32_positive (flit 9.109e-31) = true
   /\ binary32_positive (flit 1.0546e-34) = true
   /\ forall (M : MathLib spec_float), libm_nan_values M ->
      forall x k0 : spec_float,
        free_particle x k0 (flit 1e-10) (flit 0.0)
                      (flit 9.109e-31) (flit 1.0546e-34)
        = {| real := S754_nan; imag := S754_nan |})
  /\ (binary32_positive (flit 1.0) = true
      /\ binary32_positive (flit 2.0) = true
      /\ binary32_finite (flit 3e38) = true
      /\ forall (M : MathLib spec_float), libm_nan_values M ->
         forall x : spec_float,
           free_particle x (flit 3e38) (flit 1.0) (flit 0.0)
                         (flit 1.0) (flit 2.0)
           = {| real := S754_nan; imag := S754_nan |})
  /\ libm_nan_values binary32_MathLib
  /\ free_particle (H0:=binary32_MathLib) (flit 0.0) (flit 0.0)
       (flit 1e-10) (flit 0.0) (flit 9.109e-31) (flit 1.0546e-34)
     <> free_particle_initial_spec (H0:=binary32_MathLib)
          (flit 0.0) (flit 0.0) (flit 1e-10).
Proof.
  split; [|split; [|split]].
  - do 3 (split; [reflexivity|]).
    intros M HM x k0. apply free_particle_nan_width; [exact HM|].
    vm_compute. reflexivity.
  - do 3 (split; [reflexivity|]).
    intros M HM x. apply free_particle_nan_drift; [exact HM|].
    vm_compute. reflexivity.
  - exact binary32_MathLib_nan.
  - rewrite (free_particle_nan_width binary32_MathLib
               binary32_MathLib_nan) by (vm_compute; reflexivity).
    intros Hc. apply free_particle_initial_spec_not_nan.
    rewrite <- Hc. reflexivity.
Qed.

(** ** The complex algebra, continued *)

Local Open Scope R_scope.

Ltac complex_R :=
  unfold complex_abs, complex_mul, complex_conj, complex_abs2, complex_add,
    complex_sub, complex_scale, complex_mul_scalar, complex_mul_i,
    complex_dot, complex_exp_i, complex_exp;
  cbn [real imag]; real_ops.

(** X1. [complex_mul] is commutative, component by component: over the
    reals, and for all values of the binary32 format, where each product and
    the sum are rounded the same way in either order. *)
Theorem complex_mul_commutative
        (ar br : ComplexType R) (af bf : ComplexType spec_float) :
  complex_mul ar br = complex_mul br ar
  /\ complex_mul af bf = complex_mul bf af.
Proof.
  split.
  - destruct ar as [a b], br as [c d]. complex_R. f_equal; ring.
  - destruct af as [a b], bf as [c d]. unfold complex_mul. cbn [real imag].
    f_equal.
    + now rewrite (binary32_mul_comm a c), (binary32_mul_comm b d).
    + rewrite binary32_add_comm.
      now rewrite (binary32_mul_comm b c), (binary32_mul_comm a d).
Qed.

(** X2. [complex_mul z (complex_conj z)] is [(complex_abs2 z, 0)] over the
    reals.  In binary32 its real part is exactly [complex_abs2 z]; its
    imaginary part is exactly [+0] when the product [real z * imag z] is zero
    or finite, and NaN when that product overflows or is NaN. *)
Theorem complex_mul_conj (zr : ComplexType R) (zf : ComplexType spec_float) :
  complex_mul zr (complex_conj zr)
  = {| real := complex_abs2 zr; imag := 0 |}
  /\ real (complex_mul zf (complex_conj zf)) = complex_abs2 zf
  /\ imag (complex_mul zf (complex_conj zf))
     = match (real zf * imag zf)%fl with
       | S754_zero _ | S754_finite _ _ _ => S754_zero false
       | _ => S754_nan
       end.
Proof.
  split; [|split].
  - destruct zr as [a b]. complex_R. f_equal; ring.
  - destruct zf as [a b]. unfold complex_mul, complex_conj, complex_abs2.
    cbn [real imag]. now rewrite binary32_mul_neg_r, binary32_sub_neg.
  - destruct zf as [a b]. unfold complex_mul, complex_conj.
    cbn [real imag].
    rewrite binary32_mul_neg_r, (binary32_mul_comm b a).
    apply binary32_add_neg_self.
Qed.

(** X3. [complex_conj] is an involution and [complex_mul_i] has order four,
    over the reals and exactly in binary32; over the reals [complex_mul_i z]
    is [complex_mul] by the imaginary unit [(0, 1)]. *)
Theorem complex_conj_mul_i_cycles
        (zr : ComplexType R) (zf : ComplexType spec_float) :
  complex_conj (complex_conj zr) = zr
  /\ complex_conj (complex_conj zf) = zf
  /\ complex_mul_i (complex_mul_i (complex_mul_i (complex_mul_i zr))) = zr
  /\ complex_mul_i (complex_mul_i (complex_mul_i (complex_mul_i zf))) = zf
  /\ complex_mul_i zr = complex_mul {| real := 0; imag := 1 |} zr.
Proof.
  repeat split.
  - destruct zr as [a b]. complex_R. f_equal; ring.
  - destruct zf as [a b]. unfold complex_conj. cbn [real imag].
    now rewrite binary32_neg_involutive.
  - destruct zr as [a b]. complex_R. f_equal; ring.
  - destruct zf as [a b]. unfold complex_mul_i. cbn [real imag].
    now rewrite !binary32_neg_involutive.
  - destruct zr as [a b]. complex_R. f_equal; ring.
Qed.

(** X4. Over the reals [complex_abs2] and [complex_abs] are multiplicative:
    the magnitude of a product is the product of the magnitudes. *)
Theorem complex_abs_multiplicative (a b : ComplexType R) :
  complex_abs2 (complex_mul a b) = complex_abs2 a * complex_abs2 b
  /\ complex_abs (complex_mul a b) = complex_abs a * complex_abs b.
Proof.
  assert (H2 : complex_abs2 (complex_mul a b)
               = complex_abs2 a * complex_abs2 b).
  { destruct a as [a1 a2], b as [b1 b2]. complex_R. ring. }
  split; [exact H2|].
  unfold complex_abs. real_ops. rewrite H2.
  apply sqrt_mult; [destruct a as [a1 a2]|destruct b as [b1 b2]];
    complex_R; nra.
Qed.

(** X5. Over the reals [complex_abs2 z] is [complex_dot z z], it is never
    negative, and it is zero for the zero value only. *)
Theorem complex_abs2_definite (z : ComplexType R) :
  complex_abs2 z = complex_dot z z
  /\ 0 <= complex_abs2 z
  /\ (complex_abs2 z = 0 <-> z = {| real := 0; imag := 0 |}).
Proof.
  split; [reflexivity|].
  destruct z as [a b]. complex_R. split; [nra|]. split.
  - intros Hz. assert (a = 0) by nra. assert (b = 0) by nra. now subst.
  - intros Hz. injection Hz as -> ->. ring.
Qed.

(** X6. Over the reals [complex_exp_i] yields unit-magnitude values, turns
    the sum of two angles into the [complex_mul] of the two rotors, and is
    the same function as [complex_exp]. *)
Theorem complex_exp_i_rotor (a b : R) :
  complex_abs2 (complex_exp_i a) = 1
  /\ complex_exp_i (a + b)%R
     = complex_mul (complex_exp_i a) (complex_exp_i b)
  /\ complex_exp a = complex_exp_i a.
Proof.
  split; [|split].
  - complex_R. pose proof (sin2_cos2 a) as Hs. unfold Rsqr in Hs. lra.
  - complex_R. rewrite cos_plus, sin_plus. f_equal; ring.
  - reflexivity.
Qed.

Lemma polar_pos (a b : R) :
  a <> 0 ->
  sqrt (1 + Rsqr (b / a)) = sqrt (a * a + b * b) / Rabs a.
Proof.
  intros Ha.
  assert (Hr : 0 < a * a + b * b) by nra.
  assert (Habs : 0 < Rabs a) by now apply Rabs_pos_lt.
  apply sqrt_lem_1.
  - unfold Rsqr. assert (0 <= b / a * (b / a)) by nra. lra.
  - apply Rlt_le, Rdiv_lt_0_compat; [now apply sqrt_lt_R0|assumption].
  - unfold Rsqr.
    replace (sqrt (a * a + b * b) / Rabs a * (sqrt (a * a + b * b) / Rabs a))
      with (sqrt (a * a + b * b) * sqrt (a * a + b * b) / (Rabs a * Rabs a))
      by (field; lra).
    rewrite sqrt_sqrt by lra.
    replace (Rabs a * Rabs a) with (a * a)
      by (rewrite <- Rabs_mult; symmetry; apply Rabs_pos_eq; nra).
    field. assumption.
Qed.

(** X8. Over the reals, a non-zero [z] is recovered from its polar form:
    the rotor [complex_exp_i (complex_phase z)] scaled by [complex_abs z]
    is [z]. *)
Theorem complex_polar_round_trip (z : ComplexType R) :
  z <> {| real := 0; imag := 0 |} ->
  complex_scale (complex_exp_i (complex_phase z)) (complex_abs z) = z.
Proof.
  destruct z as [a b]. intros Hz.
  unfold complex_phase. complex_R.
  set (r := sqrt (a * a + b * b)).
  assert (Hr : 0 < r).
  { apply sqrt_lt_R0. destruct (Req_dec a 0) as [->|Ha].
    - assert (b <> 0) by (intros ->; now apply Hz). nra.
    - nra. }
  unfold Ratan2.
  destruct (Rlt_dec 0 a) as [Hpos|Hnpos].
  - rewrite cos_atan, sin_atan, polar_pos by lra. fold r.
    rewrite Rabs_pos_eq by lra. f_equal; field; lra.
  - destruct (Rlt_dec a 0) as [Hneg|Hnneg].
    + assert (Hc : cos (atan (b / a)) * r = - a).
      { rewrite cos_atan, polar_pos by lra. fold r.
        rewrite Rabs_left by lra. field; lra. }
      assert (Hs : sin (atan (b / a)) * r = - b).
      { rewrite sin_atan, polar_pos by lra. fold r.
        rewrite Rabs_left by lra. field; lra. }
      destruct (Rle_dec 0 b).
      * rewrite neg_cos, neg_sin. f_equal; lra.
      * rewrite cos_minus, sin_minus, cos_PI, sin_PI. f_equal; lra.
    + assert (Ha : a = 0) by lra. subst a.
      assert (Hb : b <> 0) by (intros ->; now apply Hz).
      assert (Hrb : r = Rabs b).
      { unfold r. rewrite Rmult_0_l, Rplus_0_l. apply sqrt_Rsqr_abs. }
      destruct (Rlt_dec 0 b).
      * rewrite cos_PI2, sin_PI2, Hrb, Rabs_pos_eq by lra. f_equal; ring.
      * destruct (Rlt_dec b 0); [|lra].
        rewrite cos_neg, sin_neg, cos_PI2, sin_PI2, Hrb, Rabs_left by lra.
        f_equal; ring.
Qed.

(** X9. Over the reals and for a width [sigma] that is not zero, the
    magnitude of [complex_wave_packet] is its Gaussian envelope
    [exp(-(x-x0)^2 / (2 sigma^2))], whatever [k0]; at the centre [x = x0]
    the packet is the pure rotor of angle [k0 * x0].  (At [sigma = 0] the
    source divides by zero.) *)
Theorem complex_wave_packet_envelope (x x0 k0 sigma : R) :
  sigma <> 0 ->
  complex_abs (complex_wave_packet x x0 k0 sigma)
  = exp (- ((x - x0) * (x - x0)) / (2 * (sigma * sigma)))
  /\ complex_wave_packet x0 x0 k0 sigma = complex_exp_i (k0 * x0).
Proof.
  intros Hsigma. split.
  - unfold complex_wave_packet, complex_abs, complex_abs2. cbn [real imag].
    real_ops. cbv zeta.
    set (g := exp (- (x - x0) * (x - x0) / (2 * sigma * sigma))).
    replace (g * cos (k0 * x) * (g * cos (k0 * x))
             + g * sin (k0 * x) * (g * sin (k0 * x)))
      with (g * g * (Rsqr (sin (k0 * x)) + Rsqr (cos (k0 * x))))
      by (unfold Rsqr; ring).
    rewrite sin2_cos2, Rmult_1_r, sqrt_square by (apply Rlt_le, exp_pos).
    unfold g. f_equal. field. exact Hsigma.
  - unfold complex_wave_packet, complex_exp_i. real_ops. cbv zeta.
    replace (- (x0 - x0) * (x0 - x0) / (2 * sigma * sigma)) with 0
      by (field; exact Hsigma).
    rewrite exp_0. f_equal; ring.
Qed.

Lemma complex_wave_packet_envelope_witness :
  2 <> 0
  /\ complex_abs (complex_wave_packet 3 1 5 2)
     = exp (- ((3 - 1) * (3 - 1)) / (2 * (2 * 2)))
  /\ complex_wave_packet 1 1 5 2 = complex_exp_i (5 * 1).
Proof.
  assert (H2 : 2 <> 0) by lra.
  split; [exact H2|].
  exact (complex_wave_packet_envelope 3 1 5 2 H2).
Defined.

Lemma complex_polar_round_trip_witness :
  {| real := -3; imag := 4 |} <> {| real := 0; imag := 0 |}
  /\ complex_scale (complex_exp_i (complex_phase {| real := -3; imag := 4 |}))
                   (complex_abs {| real := -3; imag := 4 |})
     = {| real := -3; imag := 4 |}.
Proof.
  assert (Hz : {| real := -3; imag := 4 |} <> {| real := 0; imag := 0 |}).
  { intros Hc. injection Hc as Hre Him. lra. }
  split; [exact Hz|].
  exact (complex_polar_round_trip {| real := -3; imag := 4 |} Hz).
Defined.

Local Close Scope R_scope.

(** ** The integer factorial *)

Lemma wrap_mul_l (a b : Z) : Int32.wrap (Int32.wrap a * b) = Int32.wrap (a * b).
Proof.
  unfold Int32.wrap. f_equal.
  set (q := (a - Int32.min_signed) / Int32.modulus).
  assert (Hq : (a - Int32.min_signed) mod Int32.modulus
               = a - Int32.min_signed - Int32.modulus * q).
  { unfold q. rewrite Z.mod_eq; [lia|]. unfold Int32.modulus. lia. }
  rewrite Hq.
  replace ((a - Int32.min_signed - Int32.modulus * q + Int32.min_signed) * b
           - Int32.min_signed)
    with (a * b - Int32.min_signed + (- q * b) * Int32.modulus) by ring.
  apply Z_mod_plus_full.
Qed.

Lemma calc_factorial_steps (k : nat) :
  steps (fun i result => Int32.mul result i) k 2 1
  = Int32.wrap (zfact (S k)).
Proof.
  induction k as [|k IH].
  - reflexivity.
  - rewrite steps_snoc, IH. unfold Int32.mul. rewrite wrap_mul_l. f_equal.
    change (zfact (S (S k))) with (Z.of_nat (S (S k)) * zfact (S k)).
    lia.
Qed.

Lemma zfact_pos (n : nat) : 0 < zfact n.
Proof. induction n as [|n IH]; [reflexivity|]. cbn [zfact]. lia. Qed.

Lemma zfact_divides (n k : nat) : (zfact n | zfact (k + n)).
Proof.
  induction k as [|k IH]; [apply Z.divide_refl|].
  cbn [Nat.add zfact]. now apply Z.divide_mul_r.
Qed.

Lemma calc_factorial_value (fuel : nat) (n : Z) :
  0 <= n < Int32.max_signed ->
  (Z.to_nat (n - 1) <= fuel)%nat ->
  calc_factorial fuel n = Some (Int32.wrap (zfact (Z.to_nat n))).
Proof.
  intros Hn Hfuel. unfold calc_factorial.
  rewrite for_loop_le;
    [|unfold Int32.in_range, Int32.min_signed, Int32.max_signed; lia|lia|lia].
  destruct (Z.le_gt_cases n 1) as [Hle|Hgt].
  - replace (Z.to_nat (n + 1 - 2)) with O by lia. cbn [steps].
    assert (Hc : n = 0 \/ n = 1) by lia.
    destruct Hc as [-> | ->]; reflexivity.
  - rewrite calc_factorial_steps. do 3 f_equal. lia.
Qed.

Lemma zfact_fits (n : Z) :
  0 <= n <= 12 -> Int32.wrap (zfact (Z.to_nat n)) = zfact (Z.to_nat n).
Proof.
  intros Hn.
  assert (Hk : (Z.to_nat n <= 12)%nat) by lia.
  generalize dependent (Z.to_nat n). intros k Hk.
  do 13 (destruct k as [|k]; [reflexivity|]). lia.
Qed.

(** X10. For [0 <= n < INT_MAX], [calc_factorial(n)] returns [n!] reduced to
    32 bits, two's complement.  It is [n!] itself up to [n = 12], and it is
    [0] from [n = 34] on, where [n!] is a multiple of [2^32]. *)
Theorem calc_factorial_wraps (fuel : nat) (n : Z) :
  0 <= n < Int32.max_signed ->
  (Z.to_nat (n - 1) <= fuel)%nat ->
  calc_factorial fuel n = Some (Int32.wrap (zfact (Z.to_nat n)))
  /\ (n <= 12 -> calc_factorial fuel n = Some (zfact (Z.to_nat n)))
  /\ (34 <= n -> calc_factorial fuel n = Some 0).
Proof.
  intros Hn Hfuel.
  pose proof (calc_factorial_value fuel n Hn Hfuel) as Hw.
  split; [exact Hw|]. split.
  - intros H12. rewrite Hw, zfact_fits by lia. reflexivity.
  - intros H34. rewrite Hw. f_equal.
    destruct (zfact_divides 34 (Z.to_nat n - 34)) as [c Hc].
    replace (Z.to_nat n - 34 + 34)%nat with (Z.to_nat n) in Hc by lia.
    assert (H32 : zfact 34 = 68739242628124575327993046875 * Int32.modulus)
      by (vm_compute; reflexivity).
    rewrite Hc, H32. unfold Int32.wrap.
    replace (c * (68739242628124575327993046875 * Int32.modulus)
             - Int32.min_signed)
      with (- Int32.min_signed
            + (c * 68739242628124575327993046875) * Int32.modulus) by ring.
    rewrite Z_mod_plus_full. reflexivity.
Qed.

Lemma calc_factorial_wraps_witness :
  0 <= 13 < Int32.max_signed
  /\ (Z.to_nat (13 - 1) <= 12)%nat
  /\ calc_factorial 12 13 = Some (Int32.wrap (zfact (Z.to_nat 13)))
  /\ (13 <= 12 -> calc_factorial 12 13 = Some (zfact (Z.to_nat 13)))
  /\ (34 <= 13 -> calc_factorial 12 13 = Some 0).
Proof.
  split; [unfold Int32.max_signed; lia|]. split; [simpl; lia|].
  apply (calc_factorial_wraps 12%nat 13);
    [unfold Int32.max_signed; lia|simpl; lia].
Defined.

(** ** Loop counts and values of the special functions *)

Section Counts.
Context {F : Type} `{FloatOps F}.

Lemma assoc_laguerre_needs_fuel (fuel : nat) (n alpha : Z) (x : F) :
  2 <= n <= Int32.max_signed ->
  (fuel < Z.to_nat (n - 1))%nat ->
  assoc_laguerre fuel n alpha x = None.
Proof.
  intros Hn Hfuel. unfold assoc_laguerre.
  destruct (Z.eqb_spec n 0); [lia|].
  destruct (Z.eqb_spec n 1); [lia|].
  rewrite (for_loop_short _ _ _ fuel (Z.to_nat (n - 1))); try reflexivity;
    try assumption; unfold Int32.min_signed, Int32.max_signed in *; try lia.
  intros j t. discriminate.
Qed.

Lemma factorial_needs_fuel (fuel : nat) (n : Z) :
  2 <= n < Int32.max_signed ->
  (fuel < Z.to_nat (n - 1))%nat ->
  factorial fuel n = None.
Proof.
  intros Hn Hfuel. unfold factorial.
  destruct (Z.leb_spec n 1); [lia|].
  apply (for_loop_short _ _ _ fuel (Z.to_nat (n - 1)));
    try assumption; unfold Int32.min_signed, Int32.max_signed in *; try lia.
  intros j t. discriminate.
Qed.

(** X11. For [2 <= n < INT_MAX] the loops of [factorial], [hermite] and
    [assoc_laguerre] make exactly [n - 1] runs: each call returns with fuel
    for [n - 1] runs and with no less. *)
Theorem special_functions_iteration_count (fuel : nat) (n alpha : Z) (x : F) :
  2 <= n < Int32.max_signed ->
  (factorial fuel n <> None <-> (Z.to_nat (n - 1) <= fuel)%nat)
  /\ (hermite fuel n x <> None <-> (Z.to_nat (n - 1) <= fuel)%nat)
  /\ (assoc_laguerre fuel n alpha x <> None
      <-> (Z.to_nat (n - 1) <= fuel)%nat).
Proof.
  intros Hn.
  destruct (Nat.le_gt_cases (Z.to_nat (n - 1)) fuel) as [Hle|Hgt].
  - repeat split; intros _; try assumption.
    + rewrite factorial_steps by lia. discriminate.
    + rewrite hermite_steps by lia. discriminate.
    + rewrite assoc_laguerre_steps by lia. discriminate.
  - repeat split; intros Hc; try lia; exfalso; apply Hc.
    + apply factorial_needs_fuel; lia.
    + apply hermite_needs_fuel; lia.
    + apply assoc_laguerre_needs_fuel; lia.
Qed.
End Counts.

Lemma special_functions_iteration_count_witness :
  2 <= 5 < Int32.max_signed
  /\ (factorial (F:=spec_float) 3 5 <> None <-> (Z.to_nat (5 - 1) <= 3)%nat)
  /\ (hermite (F:=spec_float) 3 5 (flit 0.5) <> None
      <-> (Z.to_nat (5 - 1) <= 3)%nat)
  /\ (assoc_laguerre (F:=spec_float) 3 5 2 (flit 0.5) <> None
      <-> (Z.to_nat (5 - 1) <= 3)%nat).
Proof.
  split; [unfold Int32.max_signed; lia|].
  apply (special_functions_iteration_count (F:=spec_float) 3%nat 5 2
           (flit 0.5)).
  unfold Int32.max_signed; lia.
Defined.

Lemma factorial_binary32_nat (k : nat) :
  (k <= 14)%nat ->
  factorial (F:=spec_float) (Z.to_nat (Z.of_nat k - 1)) (Z.of_nat k)
  = Some (of_int (zfact k)).
Proof.
  intros Hk.
  do 15 (destruct k as [|k]; [vm_compute; reflexivity|]). lia.
Qed.

(** X12. In binary32, [factorial(n)] is the correctly rounded value of [n!]
    for every [0 <= n <= 14]; at [n = 15] the rounding errors of the running
    product show and the result is not the rounded [15!]. *)
Theorem factorial_binary32_rounding (fuel : nat) (n : Z) :
  0 <= n <= 14 ->
  (Z.to_nat (n - 1) <= fuel)%nat ->
  factorial (F:=spec_float) fuel n = Some (of_int (zfact (Z.to_nat n)))
  /\ factorial (F:=spec_float) 14 15 <> Some (of_int (zfact 15)).
Proof.
  intros Hn Hfuel. split; [|vm_compute; intros Hc; discriminate Hc].
  assert (Hr : Int32.in_range n)
    by (unfold Int32.in_range, Int32.min_signed, Int32.max_signed; lia).
  destruct (special_functions_fuel fuel n 0 (flit 0.0) Hr Hfuel)
    as (_ & _ & Hf).
  rewrite Hf by (unfold Int32.max_signed; lia).
  pose proof (factorial_binary32_nat (Z.to_nat n) ltac:(lia)) as Hk.
  rewrite Z2Nat.id in Hk by lia. exact Hk.
Qed.

Lemma factorial_binary32_rounding_witness :
  0 <= 11 <= 14
  /\ (Z.to_nat (11 - 1) <= 10)%nat
  /\ factorial (F:=spec_float) 10 11 = Some (of_int (zfact (Z.to_nat 11)))
  /\ factorial (F:=spec_float) 14 15 <> Some (of_int (zfact 15)).
Proof.
  split; [lia|]. split; [simpl; lia|].
  apply (factorial_binary32_rounding 10%nat 11); [lia|simpl; lia].
Defined.

Local Open Scope R_scope.

Lemma Hermite_poly_parity (n : nat) (x : R) :
  Hermite n (- x) = (-1) ^ n * Hermite n x
  /\ Hermite (S n) (- x) = (-1) ^ S n * Hermite (S n) x.
Proof.
  induction n as [|n [IH0 IH1]].
  - cbn [Hermite pow]. split; ring.
  - split; [exact IH1|].
    change (Hermite (S (S n)) (- x))
      with (2 * - x * Hermite (S n) (- x) - 2 * INR (S n) * Hermite n (- x)).
    change (Hermite (S (S n)) x)
      with (2 * x * Hermite (S n) x - 2 * INR (S n) * Hermite n x).
    rewrite IH0, IH1. cbn [pow]. ring.
Qed.

(** X13. Over the reals [hermite] has the parity of its degree:
    [hermite(n, -x) = (-1)^n hermite(n, x)], and [hermite(n, 0) = 0] for odd
    [n]. *)
Theorem hermite_parity (fuel : nat) (n : Z) (x : R) :
  (0 <= n <= Int32.max_signed)%Z ->
  (Z.to_nat (n - 1) <= fuel)%nat ->
  exists h : R,
    hermite fuel n x = Some h
    /\ hermite fuel n (- x)%fl = Some ((-1) ^ Z.to_nat n * h)
    /\ (Z.odd n = true -> hermite fuel n 0 = Some 0).
Proof.
  intros Hn Hfuel. exists (Hermite (Z.to_nat n) x).
  split; [now apply hermite_exact|]. split.
  - cbn [fneg R_FloatOps]. rewrite hermite_exact by assumption.
    f_equal. apply Hermite_poly_parity.
  - intros Hodd. rewrite hermite_exact by assumption. f_equal.
    destruct (Hermite_poly_parity (Z.to_nat n) 0) as [Hp _].
    rewrite Ropp_0 in Hp.
    assert (Hm : (-1) ^ Z.to_nat n = -1).
    { apply Z.odd_spec in Hodd. destruct Hodd as [m Hm].
      replace (Z.to_nat n) with (S (2 * Z.to_nat m)) by lia.
      apply pow_1_odd. }
    rewrite Hm in Hp. lra.
Qed.

Lemma hermite_parity_witness :
  (0 <= 3 <= Int32.max_signed)%Z
  /\ (Z.to_nat (3 - 1) <= 2)%nat
  /\ exists h : R,
      hermite 2 3 (1 / 2) = Some h
      /\ hermite 2 3 (- (1 / 2))%fl = Some ((-1) ^ Z.to_nat 3 * h)
      /\ (Z.odd 3 = true -> hermite 2 3 0 = Some 0).
Proof.
  split; [unfold Int32.max_signed; lia|]. split; [simpl; lia|].
  apply (hermite_parity 2%nat 3%Z (1 / 2));
    [unfold Int32.max_signed; lia|simpl; lia].
Defined.

Local Close Scope R_scope.

(** ** More on the special functions over the reals *)

Local Open Scope R_scope.

(** X7. Over the reals, for [0 <= n < INT_MAX], [factorial(n)] returns [n!]. *)
Theorem factorial_is_factorial (fuel : nat) (n : Z) :
  (0 <= n < Int32.max_signed)%Z ->
  (Z.to_nat (n - 1) <= fuel)%nat ->
  factorial (F:=R) fuel n = Some (INR (fact (Z.to_nat n))).
Proof.
  intros Hn Hfuel.
  destruct (Z.le_gt_cases n 1) as [Hle|Hgt].
  - rewrite factorial_le_1 by assumption. rewrite flit_R_1.
    assert (Hc : n = 0%Z \/ n = 1%Z) by lia.
    destruct Hc as [-> | ->]; reflexivity.
  - rewrite factorial_steps by lia.
    rewrite factorial_steps_fact. do 3 f_equal. lia.
Qed.

Lemma factorial_is_factorial_witness :
  (0 <= 6 < Int32.max_signed)%Z
  /\ (Z.to_nat (6 - 1) <= 5)%nat
  /\ factorial (F:=R) 5 6 = Some (INR (fact (Z.to_nat 6))).
Proof.
  split; [unfold Int32.max_signed; lia|]. split; [simpl; lia|].
  apply (factorial_is_factorial 5%nat 6%Z);
    first [unfold Int32.max_signed; lia | simpl; lia].
Defined.

Lemma laguerre_rec_at_0 (alpha : Z) (k : nat) :
  INR (S k) * laguerre_rec alpha 0 (S k)
  = (INR (S k) + IZR alpha) * laguerre_rec alpha 0 k.
Proof.
  induction k as [|k IH].
  - cbn [laguerre_rec]. real_ops. simpl INR. ring.
  - change (laguerre_rec alpha 0 (S (S k)))
      with (((flit 2.0 * of_int (Z.of_nat (S k)) + flit 1.0 + of_int alpha - 0)
              * laguerre_rec alpha 0 (S k)
              - (of_int (Z.of_nat (S k)) + of_int alpha)
                * laguerre_rec alpha 0 k)
             / (of_int (Z.of_nat (S k)) + flit 1.0))%fl.
    real_ops. rewrite <- (INR_IZR_INZ (S k)).
    rewrite (S_INR (S k)).
    assert (Hk : 0 < INR (S k) + 1) by (pose proof (pos_INR (S k)); lra).
    replace ((INR (S k) + IZR alpha) * laguerre_rec alpha 0 k)
      with (INR (S k) * laguerre_rec alpha 0 (S k)) by exact IH.
    field. lra.
Qed.

Lemma binomial_step (a k : nat) :
  INR (S k) * C (S k + a) (S k) = (INR (S k) + INR a) * C (k + a) k.
Proof.
  unfold C.
  replace (S k + a - S k)%nat with a by lia.
  replace (k + a - k)%nat with a by lia.
  change (S k + a)%nat with (S (k + a)).
  rewrite !fact_simpl, !mult_INR.
  rewrite (S_INR (k + a)), plus_INR, (S_INR k).
  pose proof (INR_fact_lt_0 k). pose proof (INR_fact_lt_0 a).
  pose proof (pos_INR k).
  field. repeat split; lra.
Qed.

(** X14. Over the reals, for [n >= 0] and [alpha >= 0],
    [assoc_laguerre(n, alpha, 0)] is the binomial coefficient
    [C(n + alpha, n)], the value of [L_n^alpha] at the origin. *)
Theorem assoc_laguerre_at_origin (fuel : nat) (n alpha : Z) :
  (0 <= n <= Int32.max_signed)%Z ->
  (0 <= alpha)%Z ->
  (Z.to_nat (n - 1) <= fuel)%nat ->
  assoc_laguerre (F:=R) fuel n alpha 0
  = Some (C (Z.to_nat n + Z.to_nat alpha) (Z.to_nat n)).
Proof.
  intros Hn Halpha Hfuel.
  assert (Hrec : forall k : nat,
             laguerre_rec (F:=R) alpha 0 k = C (k + Z.to_nat alpha) k).
  { induction k as [|k IH].
    - cbn [laguerre_rec]. real_ops. unfold C.
      replace (0 + Z.to_nat alpha - 0)%nat with (Z.to_nat alpha) by lia.
      cbn [Nat.add fact INR]. pose proof (INR_fact_lt_0 (Z.to_nat alpha)).
      field. lra.
    - pose proof (laguerre_rec_at_0 alpha k) as Hl.
      pose proof (binomial_step (Z.to_nat alpha) k) as Hb.
      assert (Ha : INR (Z.to_nat alpha) = IZR alpha)
        by (rewrite INR_IZR_INZ, Z2Nat.id; [reflexivity|assumption]).
      rewrite IH in Hl. rewrite Ha in Hb.
      assert (Hk : 0 < INR (S k)) by (apply lt_0_INR; lia).
      apply (Rmult_eq_reg_l (INR (S k))); [|lra].
      rewrite Hl. symmetry. exact Hb. }
  destruct (Z.eq_dec n 0) as [->|Hn0].
  - cbn [assoc_laguerre Z.eqb Z.to_nat]. rewrite <- (Hrec O). reflexivity.
  - rewrite assoc_laguerre_steps by lia.
    destruct (laguerre_steps_rec alpha 0 (Z.to_nat (n - 1))) as [_ H1].
    rewrite H1, Hrec. do 2 f_equal; lia.
Qed.

Lemma assoc_laguerre_at_origin_witness :
  (0 <= 3 <= Int32.max_signed)%Z
  /\ (0 <= 2)%Z
  /\ (Z.to_nat (3 - 1) <= 2)%nat
  /\ assoc_laguerre (F:=R) 2 3 2 0
     = Some (C (Z.to_nat 3 + Z.to_nat 2) (Z.to_nat 3)).
Proof.
  split; [unfold Int32.max_signed; lia|]. split; [lia|]. split; [simpl; lia|].
  apply (assoc_laguerre_at_origin 2%nat 3%Z 2%Z);
    first [lia | unfold Int32.max_signed; lia | simpl; lia].
Defined.

(** ** The infinite well over the reals *)

Lemma Rltb_false (a b : R) : Rltb a b = false <-> b <= a.
Proof.
  unfold Rltb. destruct (Rlt_dec a b); split; intros; try reflexivity;
    try discriminate; lra.
Qed.

Lemma Rpow_sq (x : R) : Rpow x 2 = x * x.
Proof.
  unfold Rpow. destruct (Req_EM_T 2 0) as [H2|_]; [lra|].
  destruct (Rlt_dec 0 x) as [Hpos|Hnpos].
  - change 2 with (INR 2). rewrite Rpower_pow by assumption. simpl. ring.
  - destruct (Req_EM_T x 0) as [->|Hx]; [ring|].
    assert (Hi : Int_part 2 = 2%Z).
    { symmetry. apply Int_part_spec. lra. }
    rewrite Hi. destruct (Req_EM_T 2 2) as [_|Hc]; [|lra].
    simpl. ring.
Qed.

(** A value of the form [A (cos phi, sin phi)] has squared magnitude [A^2]. *)
Lemma complex_abs2_polar (A phi : R) :
  complex_abs2 {| real := A * cos phi; imag := A * sin phi |} = A * A.
Proof.
  unfold complex_abs2. cbn [real imag]. real_ops.
  pose proof (sin2_cos2 phi) as Hs. unfold Rsqr in Hs. nra.
Qed.

Lemma infinite_well_inside (x L : R) (n : Z) (t mass hbar : R) :
  0 <= x <= L ->
  infinite_well x L n t mass hbar
  = {| real := sqrt (2 / L) * sin (IZR n * PI * x / L)
               * cos (- (Rpow (IZR n * PI * hbar) 2 / (2 * mass * L * L))
                      * t / hbar);
       imag := sqrt (2 / L) * sin (IZR n * PI * x / L)
               * sin (- (Rpow (IZR n * PI * hbar) 2 / (2 * mass * L * L))
                      * t / hbar) |}.
Proof.
  intros Hx. unfold infinite_well. real_ops.
  replace (Rltb x 0) with false by (symmetry; apply Rltb_false; lra).
  replace (Rltb L x) with false by (symmetry; apply Rltb_false; lra).
  reflexivity.
Qed.


(** X16. Over the reals, inside the well the probability density
    [complex_abs2] is [(2 / L) sin^2(n pi x / L)] at every time [t]. *)
Theorem infinite_well_density (x L : R) (n : Z) (t mass hbar : R) :
  0 < L -> 0 < mass -> 0 < hbar -> 0 <= x <= L ->
  complex_abs2 (infinite_well x L n t mass hbar)
  = 2 / L * (sin (IZR n * PI * x / L) * sin (IZR n * PI * x / L)).
Proof.
  intros HL _ _ Hx. rewrite infinite_well_inside by assumption.
  rewrite complex_abs2_polar.
  assert (Hs : sqrt (2 / L) * sqrt (2 / L) = 2 / L).
  { apply sqrt_sqrt. apply Rlt_le, Rdiv_lt_0_compat; lra. }
  set (S := sin (IZR n * PI * x / L)).
  replace (sqrt (2 / L) * S * (sqrt (2 / L) * S))
    with (sqrt (2 / L) * sqrt (2 / L) * (S * S)) by ring.
  now rewrite Hs.
Qed.

(** X17. Over the reals, with [L], [mass] and [hbar] positive, changing
    the sign of the level [n] negates the wavefunction, and the level
    [n = 0] is the zero function. *)
Theorem infinite_well_level_sign (x L : R) (n : Z) (t mass hbar : R) :
  0 < L -> 0 < mass -> 0 < hbar ->
  infinite_well x L (- n) t mass hbar
  = complex_scale (infinite_well x L n t mass hbar) (-1)
  /\ infinite_well x L 0 t mass hbar = {| real := 0; imag := 0 |}.
Proof.
  intros _ _ _.
  assert (Hneg : infinite_well x L (- n) t mass hbar
                 = complex_scale (infinite_well x L n t mass hbar) (-1)).
  { unfold infinite_well, complex_scale. real_ops.
    destruct (Rltb x 0 || Rltb L x).
    - cbn [real imag]. f_equal; ring.
    - cbn [real imag]. rewrite opp_IZR, !Rpow_sq.
      replace (- IZR n * PI * x / L) with (- (IZR n * PI * x / L))
        by (unfold Rdiv; ring).
      rewrite sin_neg.
      replace (- IZR n * PI * hbar * (- IZR n * PI * hbar))
        with (IZR n * PI * hbar * (IZR n * PI * hbar)) by ring.
      f_equal; ring. }
  split; [exact Hneg|].
  unfold infinite_well. real_ops.
  destruct (Rltb x 0 || Rltb L x); [reflexivity|].
  replace (0 * PI * x / L) with 0 by (unfold Rdiv; ring).
  rewrite sin_0. f_equal; ring.
Qed.


Lemma infinite_well_density_witness :
  0 < 2 /\ 0 < 1 /\ 0 < 1 /\ 0 <= 1 / 2 <= 2
  /\ complex_abs2 (infinite_well (1 / 2) 2 3 5 1 1)
     = 2 / 2 * (sin (3 * PI * (1 / 2) / 2) * sin (3 * PI * (1 / 2) / 2)).
Proof.
  split; [lra|]. split; [lra|]. split; [lra|]. split; [lra|].
  apply (infinite_well_density (1 / 2) 2 3%Z 5 1 1); lra.
Defined.

Lemma infinite_well_level_sign_witness :
  0 < 2 /\ 0 < 1 /\ 0 < 1
  /\ infinite_well (1 / 2) 2 (- 3) 5 1 1
     = complex_scale (infinite_well (1 / 2) 2 3 5 1 1) (-1)
  /\ infinite_well (1 / 2) 2 0 5 1 1 = {| real := 0; imag := 0 |}.
Proof.
  split; [lra|]. split; [lra|]. split; [lra|].
  apply (infinite_well_level_sign (1 / 2) 2 3%Z 5 1 1); lra.
Defined.

(** ** The oscillator and its driver over the reals *)

Lemma Rpower_1_base (y : R) : Rpower 1 y = 1.
Proof. unfold Rpower. rewrite ln_1, Rmult_0_r. apply exp_0. Qed.

Lemma ho_amplitude_natural (x : R) (n : nat) (omega mass hbar : R) :
  0 < hbar -> mass * omega = hbar ->
  ho_amplitude_code x n omega mass hbar = ho_natural n x
  /\ ho_amplitude_spec x n omega mass hbar = ho_natural n x.
Proof.
  intros Hh Hm. unfold ho_amplitude_code, ho_amplitude_spec, ho_natural.
  cbv zeta. rewrite Hm.
  replace (hbar / hbar) with 1 by (field; lra).
  rewrite sqrt_1, Rmult_1_r, !Rpower_1_base. split; ring.
Qed.

(** X18. Over the reals, when [mass * omega = hbar] (so that the scale
    factor [alpha] is [1], as in the driver's call) the evaluator returns the
    textbook value: the spec's amplitude times the rotor of the spec's
    phase. *)
Theorem harmonic_oscillator_natural_units (fuel : nat) (x : R) (n : Z)
        (omega t mass hbar : R) :
  (0 <= n < Int32.max_signed)%Z ->
  (Z.to_nat (n - 1) <= fuel)%nat ->
  0 < omega -> 0 < mass -> 0 < hbar ->
  mass * omega = hbar ->
  harmonic_oscillator fuel x n omega t mass hbar
  = Some {| real := ho_amplitude_spec x (Z.to_nat n) omega mass hbar
                    * cos (ho_phase_spec (Z.to_nat n) omega t hbar);
            imag := ho_amplitude_spec x (Z.to_nat n) omega mass hbar
                    * sin (ho_phase_spec (Z.to_nat n) omega t hbar) |}.
Proof.
  intros Hn Hfuel Ho Hm Hh Hunit.
  rewrite harmonic_oscillator_exact by assumption.
  destruct (ho_amplitude_natural x (Z.to_nat n) omega mass hbar Hh Hunit)
    as [Hc Hs].
  now rewrite Hc, Hs.
Qed.

(** X19. Over the reals, for positive [omega], [mass], [hbar]: the
    probability density of the oscillator state does not depend on [t], the
    value at [t = 0] is real, and the state has the parity of its level,
    [psi_n(-x) = (-1)^n psi_n(x)]. *)
Theorem harmonic_oscillator_stationary (fuel : nat) (x : R) (n : Z)
        (omega t mass hbar : R) :
  (0 <= n < Int32.max_signed)%Z ->
  (Z.to_nat (n - 1) <= fuel)%nat ->
  0 < omega -> 0 < mass -> 0 < hbar ->
  exists z z0 zm : ComplexType R,
    harmonic_oscillator fuel x n omega t mass hbar = Some z
    /\ harmonic_oscillator fuel x n omega 0 mass hbar = Some z0
    /\ harmonic_oscillator fuel (- x) n omega t mass hbar = Some zm
    /\ complex_abs2 z = complex_abs2 z0
    /\ imag z0 = 0
    /\ zm = complex_scale z ((-1) ^ Z.to_nat n).
Proof.
  intros Hn Hfuel Ho Hm Hh.
  rewrite !harmonic_oscillator_exact by assumption.
  do 3 eexists. split; [reflexivity|]. split; [reflexivity|].
  split; [reflexivity|]. split; [|split].
  - now rewrite !complex_abs2_polar.
  - cbn [imag]. unfold ho_phase_spec.
    replace (- (hbar * omega * (INR (Z.to_nat n) + 1 / 2)) * 0 / hbar) with 0
      by (unfold Rdiv; ring).
    rewrite sin_0. ring.
  - unfold complex_scale. cbn [real imag]. real_ops.
    assert (Hp : ho_amplitude_code (- x) (Z.to_nat n) omega mass hbar
                 = (-1) ^ Z.to_nat n
                   * ho_amplitude_code x (Z.to_nat n) omega mass hbar).
    { unfold ho_amplitude_code. cbv zeta.
      replace (- x * sqrt (mass * omega / hbar))
        with (- (x * sqrt (mass * omega / hbar))) by ring.
      destruct (Hermite_poly_parity (Z.to_nat n)
                  (x * sqrt (mass * omega / hbar))) as [Hpar _].
      rewrite Hpar.
      replace (- (x * sqrt (mass * omega / hbar))
               * - (x * sqrt (mass * omega / hbar)))
        with (x * sqrt (mass * omega / hbar)
              * (x * sqrt (mass * omega / hbar))) by ring.
      unfold Rdiv. ring. }
    rewrite Hp. f_equal; ring.
Qed.

(** X20. Over the reals, for [0 <= n < INT_MAX], the driver fills the first
    [size] cells of [psi] with the real values
    [H_n(x) exp(-x^2/2) / sqrt(2^n n! sqrt(pi))] of the positions, in order,
    each with imaginary part [0]. *)
Theorem driver_natural_units (fuel : nat) (psi : buffer (ComplexType R))
        (position : buffer R) (n size : Z) :
  (0 <= n < Int32.max_signed)%Z ->
  (0 <= size <= Int32.max_signed)%Z ->
  (Z.to_nat (n - 1) <= fuel)%nat ->
  (Z.to_nat size <= fuel)%nat ->
  exists psi' : buffer (ComplexType R),
    calculateHarmonicOscillatorState fuel psi position n size = Some psi'
    /\ contents psi' size
       = map (fun x => {| real := ho_natural (Z.to_nat n) x; imag := 0 |})
             (contents position size).
Proof.
  intros Hn Hsize Hfuel_n Hfuel_size.
  destruct (driver_index_correspondence fuel psi position n size)
    as (psi' & Hrun & _ & _ & Hin & _); try assumption.
  { unfold Int32.min_signed. lia. }
  exists psi'. split; [exact Hrun|].
  unfold contents. rewrite map_map. apply map_ext_in.
  intros k Hk. apply in_seq in Hk.
  specialize (Hin (Z.of_nat k) ltac:(lia)).
  rewrite flit_R_1, flit_R_0 in Hin.
  rewrite harmonic_oscillator_exact in Hin by (assumption || lra).
  injection Hin as Hin. rewrite <- Hin.
  destruct (ho_amplitude_natural (position (Z.of_nat k)) (Z.to_nat n) 1 1 1)
    as [Hc _]; [lra|lra|].
  rewrite Hc. unfold ho_phase_spec.
  replace (- (1 * 1 * (INR (Z.to_nat n) + 1 / 2)) * 0 / 1) with 0
    by (unfold Rdiv; ring).
  rewrite cos_0, sin_0. f_equal; ring.
Qed.

Lemma harmonic_oscillator_natural_units_witness :
  (0 <= 2 < Int32.max_signed)%Z /\ (Z.to_nat (2 - 1) <= 1)%nat
  /\ 0 < 3 /\ 0 < 2 /\ 0 < 6 /\ 2 * 3 = 6
  /\ harmonic_oscillator 1 (1 / 2) 2 3 5 2 6
     = Some {| real := ho_amplitude_spec (1 / 2) (Z.to_nat 2) 3 2 6
                       * cos (ho_phase_spec (Z.to_nat 2) 3 5 6);
               imag := ho_amplitude_spec (1 / 2) (Z.to_nat 2) 3 2 6
                       * sin (ho_phase_spec (Z.to_nat 2) 3 5 6) |}.
Proof.
  split; [unfold Int32.max_signed; lia|]. split; [simpl; lia|].
  split; [lra|]. split; [lra|]. split; [lra|]. split; [lra|].
  apply (harmonic_oscillator_natural_units 1%nat (1 / 2) 2%Z 3 5 2 6);
    first [lra | unfold Int32.max_signed; lia | simpl; lia].
Defined.

Lemma harmonic_oscillator_stationary_witness :
  (0 <= 3 < Int32.max_signed)%Z /\ (Z.to_nat (3 - 1) <= 2)%nat
  /\ 0 < 2 /\ 0 < 1 /\ 0 < 1
  /\ exists z z0 zm : ComplexType R,
      harmonic_oscillator 2 (1 / 2) 3 2 5 1 1 = Some z
      /\ harmonic_oscillator 2 (1 / 2) 3 2 0 1 1 = Some z0
      /\ harmonic_oscillator 2 (- (1 / 2)) 3 2 5 1 1 = Some zm
      /\ complex_abs2 z = complex_abs2 z0
      /\ imag z0 = 0
      /\ zm = complex_scale z ((-1) ^ Z.to_nat 3).
Proof.
  split; [unfold Int32.max_signed; lia|]. split; [simpl; lia|].
  split; [lra|]. split; [lra|]. split; [lra|].
  apply (harmonic_oscillator_stationary 2%nat (1 / 2) 3%Z 2 5 1 1);
    first [lra | unfold Int32.max_signed; lia | simpl; lia].
Defined.

Lemma driver_natural_units_witness :
  (0 <= 2 < Int32.max_signed)%Z /\ (0 <= 3 <= Int32.max_signed)%Z
  /\ (Z.to_nat (2 - 1) <= 3)%nat /\ (Z.to_nat 3 <= 3)%nat
  /\ exists psi' : buffer (ComplexType R),
      calculateHarmonicOscillatorState 3
        (fun _ => {| real := 0; imag := 0 |}) IZR 2 3 = Some psi'
      /\ contents psi' 3
         = map (fun x => {| real := ho_natural (Z.to_nat 2) x; imag := 0 |})
               (contents IZR 3).
Proof.
  split; [unfold Int32.max_signed; lia|].
  split; [unfold Int32.max_signed; lia|].
  split; [simpl; lia|]. split; [simpl; lia|].
  apply (driver_natural_units 3%nat (fun _ => {| real := 0; imag := 0 |})
           IZR 2%Z 3%Z);
    first [unfold Int32.max_signed; lia | simpl; lia].
Defined.

(** ** The free packet over the reals *)

Lemma packet_width_bounds (sigma t mass hbar : R) :
  0 < sigma -> sigma <= packet_width sigma t mass hbar.
Proof.
  intros Hs. unfold packet_width.
  set (u := hbar * t / (mass * sigma * sigma)).
  assert (H1 : 1 <= sqrt (1 + u * u)).
  { rewrite <- sqrt_1 at 1. apply sqrt_le_1_alt. nra. }
  nra.
Qed.

Lemma free_particle_polar (x k0 sigma t mass hbar : R) :
  0 < sigma ->
  let s := packet_width sigma t mass hbar in
  let dx := x - hbar * k0 * t / mass in
  let A := exp (- (dx * dx) / (2 * (s * s)))
           / Rpower (2 * PI * (s * s)) (1 / 4) in
  let phi := k0 * dx - / 2 * Ratan2 (hbar * t) (2 * mass * sigma * sigma) in
  free_particle x k0 sigma t mass hbar
  = {| real := A * cos phi; imag := A * sin phi |}.
Proof.
  intros Hs s dx A phi. unfold free_particle. real_ops.
  rewrite Rpow_sq. fold (packet_width sigma t mass hbar). fold s.
  replace (x - 0 - hbar * k0 * t / mass) with dx by (unfold dx; ring).
  assert (Hpos : 0 < s)
    by (pose proof (packet_width_bounds sigma t mass hbar Hs); unfold s; lra).
  rewrite Rpow_pos; [| |lra].
  - replace (- dx * dx / (2 * s * s)) with (- (dx * dx) / (2 * (s * s)))
      by (field; lra).
    replace (2 * PI * s * s) with (2 * PI * (s * s)) by ring.
    replace (/ 4) with (1 / 4) by lra.
    reflexivity.
  - pose proof PI_RGT_0.
    apply Rmult_lt_0_compat; [apply Rmult_lt_0_compat|]; lra.
Qed.

(** X21. Over the reals, for positive [sigma], [mass], [hbar], the
    probability density of the packet at time [t] is the Gaussian
    [exp(-dx^2 / s^2) / sqrt(2 pi s^2)], with [dx] the distance to the
    drifted centre [hbar k0 t / mass] and [s] the width at time [t]. *)
Theorem free_particle_density (x k0 sigma t mass hbar : R) :
  0 < sigma -> 0 < mass -> 0 < hbar ->
  let s := packet_width sigma t mass hbar in
  let dx := x - hbar * k0 * t / mass in
  complex_abs2 (free_particle x k0 sigma t mass hbar)
  = exp (- (dx * dx) / (s * s)) / sqrt (2 * PI * (s * s)).
Proof.
  intros Hs Hm Hh s dx.
  rewrite free_particle_polar by assumption. cbv zeta.
  rewrite complex_abs2_polar. fold s dx.
  assert (Hpos : 0 < s)
    by (pose proof (packet_width_bounds sigma t mass hbar Hs); unfold s; lra).
  assert (HB : 0 < 2 * PI * (s * s)).
  { pose proof PI_RGT_0. apply Rmult_lt_0_compat; nra. }
  set (B := 2 * PI * (s * s)) in *.
  assert (HP : Rpower B (1 / 4) * Rpower B (1 / 4) = sqrt B).
  { rewrite <- Rpower_plus, <- Rpower_sqrt by assumption. f_equal. lra. }
  assert (HE : exp (- (dx * dx) / (2 * (s * s)))
               * exp (- (dx * dx) / (2 * (s * s)))
               = exp (- (dx * dx) / (s * s))).
  { rewrite <- exp_plus. f_equal. field. lra. }
  rewrite <- HP, <- HE. field.
  apply Rgt_not_eq. unfold Rpower. apply exp_pos.
Qed.

(** X22. Over the reals, for positive [sigma], [mass], [hbar], the density
    of the packet is largest at the drifted centre [hbar k0 t / mass], and
    the width at time [t] is never below the initial width [sigma]. *)
Theorem free_particle_peak (x k0 sigma t mass hbar : R) :
  0 < sigma -> 0 < mass -> 0 < hbar ->
  complex_abs2 (free_particle x k0 sigma t mass hbar)
  <= complex_abs2 (free_particle (hbar * k0 * t / mass) k0 sigma t mass hbar)
  /\ sigma <= packet_width sigma t mass hbar.
Proof.
  intros Hs Hm Hh. split; [|now apply packet_width_bounds].
  rewrite !free_particle_polar by assumption. cbv zeta.
  rewrite !complex_abs2_polar.
  set (s := packet_width sigma t mass hbar).
  assert (Hpos : 0 < s)
    by (pose proof (packet_width_bounds sigma t mass hbar Hs); unfold s; lra).
  set (P := Rpower (2 * PI * (s * s)) (1 / 4)).
  assert (HP : 0 < / P).
  { apply Rinv_0_lt_compat. unfold P, Rpower. apply exp_pos. }
  set (dx := x - hbar * k0 * t / mass).
  replace (hbar * k0 * t / mass - hbar * k0 * t / mass) with 0 by ring.
  replace (- (0 * 0) / (2 * (s * s))) with 0 by (unfold Rdiv; ring).
  rewrite exp_0.
  assert (HE : 0 < exp (- (dx * dx) / (2 * (s * s))) <= 1).
  { split; [apply exp_pos|]. rewrite <- exp_0.
    destruct (Req_dec dx 0) as [Hdx|Hdx].
    - rewrite Hdx. apply Req_le. f_equal. unfold Rdiv. ring.
    - apply Rlt_le, exp_increasing.
      assert (0 < dx * dx / (2 * (s * s))) by (apply Rdiv_lt_0_compat; nra).
      unfold Rdiv in *. lra. }
  set (E := exp (- (dx * dx) / (2 * (s * s)))) in *.
  unfold Rdiv.
  assert (H1 : 0 < E * / P) by (apply Rmult_lt_0_compat; lra).
  assert (H2 : E * / P <= 1 * / P) by (apply Rmult_le_compat_r; lra).
  nra.
Qed.

Lemma free_particle_density_witness :
  0 < 2 /\ 0 < 3 /\ 0 < 1
  /\ complex_abs2 (free_particle (1 / 2) 5 2 7 3 1)
     = exp (- ((1 / 2 - 1 * 5 * 7 / 3) * (1 / 2 - 1 * 5 * 7 / 3))
            / (packet_width 2 7 3 1 * packet_width 2 7 3 1))
       / sqrt (2 * PI * (packet_width 2 7 3 1 * packet_width 2 7 3 1)).
Proof.
  split; [lra|]. split; [lra|]. split; [lra|].
  apply (free_particle_density (1 / 2) 5 2 7 3 1); lra.
Defined.

Lemma free_particle_peak_witness :
  0 < 2 /\ 0 < 3 /\ 0 < 1
  /\ complex_abs2 (free_particle (1 / 2) 5 2 7 3 1)
     <= complex_abs2 (free_particle (1 * 5 * 7 / 3) 5 2 7 3 1)
  /\ 2 <= packet_width 2 7 3 1.
Proof.
  split; [lra|]. split; [lra|]. split; [lra|].
  apply (free_particle_peak (1 / 2) 5 2 7 3 1); lra.
Defined.

(** ** The hydrogen atom *)

Local Close Scope R_scope.

Section Hydrogen.
Context {F : Type} `{FloatOps F} `{MathLib F}.

(** X23. For [n, l >= 0] whose sum is an [int], [hydrogen_atom] returns
    when [n + l < INT_MAX], within [max(n + l - 1, 0)] runs of each loop,
    also when [l >= n]; it does not return when [n + l = INT_MAX], where it
    calls [factorial(INT_MAX)]. *)
Theorem hydrogen_atom_returns (fuel : nat) (r : F) (n l : Z) (t hbar : F) :
  0 <= n -> 0 <= l -> n + l <= Int32.max_signed ->
  (Z.to_nat (n + l - 1) <= fuel)%nat ->
  (n + l < Int32.max_signed ->
   exists v, hydrogen_atom fuel r n l t hbar = Some v)
  /\ (n + l = Int32.max_signed -> hydrogen_atom fuel r n l t hbar = None).
Proof.
  intros Hn Hl Hsum Hfuel. unfold Int32.max_signed in *.
  assert (Hdeg : Int32.sub (Int32.sub n l) 1 = n - l - 1).
  { unfold Int32.sub. rewrite (wrap_small (n - l)); [apply wrap_small|];
      unfold Int32.in_range, Int32.min_signed, Int32.max_signed; lia. }
  assert (Hadd : Int32.add n l = n + l).
  { unfold Int32.add. apply wrap_small.
    unfold Int32.in_range, Int32.min_signed, Int32.max_signed; lia. }
  unfold hydrogen_atom. rewrite Hdeg, Hadd.
  set (alpha := Int32.add (Int32.mul 2 l) 1).
  set (rho := (flit 2.0 * r / (of_int n * flit 5.29177210903e-11))%fl).
  assert (Hr : Int32.in_range (n - l - 1))
    by (unfold Int32.in_range, Int32.min_signed, Int32.max_signed; lia).
  destruct (special_functions_fuel fuel (n - l - 1) alpha rho Hr ltac:(lia))
    as (_ & Hlag & Hf1).
  destruct (special_functions_return (n - l - 1) alpha rho Hr)
    as (_ & (lag & Hlag') & Hf1').
  destruct (Hf1' ltac:(unfold Int32.max_signed; lia)) as (f1 & Hf1'').
  rewrite Hlag, Hlag', Hf1, Hf1'' by (unfold Int32.max_signed; lia).
  cbn [bind]. split.
  - intros Hlt.
    assert (Hr2 : Int32.in_range (n + l))
      by (unfold Int32.in_range, Int32.min_signed, Int32.max_signed; lia).
    destruct (special_functions_fuel fuel (n + l) 0 rho Hr2 Hfuel)
      as (_ & _ & Hf2).
    destruct (special_functions_return (n + l) 0 rho Hr2) as (_ & _ & Hf2').
    destruct (Hf2' ltac:(unfold Int32.max_signed; lia)) as (f2 & Hf2'').
    rewrite Hf2, Hf2'' by (unfold Int32.max_signed; lia). cbn [bind].
    eexists. reflexivity.
  - intros Heq. rewrite Heq.
    change 2147483647 with Int32.max_signed.
    now rewrite factorial_INT_MAX.
Qed.
End Hydrogen.

Lemma hydrogen_atom_returns_witness :
  0 <= 2 /\ 0 <= 1 /\ 2 + 1 <= Int32.max_signed
  /\ (Z.to_nat (2 + 1 - 1) <= 2)%nat
  /\ (2 + 1 < Int32.max_signed ->
      exists v, hydrogen_atom (F:=R) 2 1%R 2 1 0%R 1%R = Some v)
  /\ (2 + 1 = Int32.max_signed ->
      hydrogen_atom (F:=R) 2 1%R 2 1 0%R 1%R = None).
Proof.
  split; [lia|]. split; [lia|]. split; [unfold Int32.max_signed; lia|].
  split; [simpl; lia|].
  apply (hydrogen_atom_returns (F:=R) 2%nat 1%R 2 1 0%R 1%R);
    first [lia | unfold Int32.max_signed; lia | simpl; lia].
Defined.

Local Open Scope R_scope.

Lemma bohr_radius_pos : 0 < flit (F:=R) 5.29177210903e-11.
Proof.
  unfold flit, R_FloatOps, Q2R. simpl Qnum. simpl Qden.
  apply Rmult_lt_0_compat; [|apply Rinv_0_lt_compat]; apply IZR_lt;
    reflexivity.
Qed.

(** X24. Over the reals, for [n = 1], [l = 0] the evaluator returns the
    textbook 1s state: radial part [2 a0^(-3/2) exp(-r / a0)], written
    [sqrt(4 / a0^3) exp(-r / a0)], and phase [Ry t / hbar], with [a0] and
    [Ry] the two constants of the source. *)
Theorem hydrogen_atom_ground_state (fuel : nat) (r t hbar : R) :
  0 <= r -> 0 < hbar ->
  let a0 := flit (F:=R) 5.29177210903e-11 in
  let Ry := flit (F:=R) 2.1798723611035e-18 in
  hydrogen_atom fuel r 1 0 t hbar
  = Some {| real := sqrt (4 / (a0 * a0 * a0)) * exp (- (r / a0))
                    * cos (Ry * t / hbar);
            imag := sqrt (4 / (a0 * a0 * a0)) * exp (- (r / a0))
                    * sin (Ry * t / hbar) |}.
Proof.
  intros Hr Hh a0 Ry. unfold hydrogen_atom.
  change (Int32.sub (Int32.sub 1 0) 1) with 0%Z.
  change (Int32.add (Int32.mul 2 0) 1) with 1%Z.
  change (Int32.add 1 0) with 1%Z.
  change (Int32.mul 1 1) with 1%Z.
  rewrite (factorial_le_1 fuel 0), (factorial_le_1 fuel 1) by lia.
  unfold assoc_laguerre. cbn [Z.eqb bind].
  fold a0 Ry. real_ops.
  pose proof bohr_radius_pos as Ha. fold a0 in Ha.
  rewrite Rpow_0_r.
  rewrite Rpow_pos; [| |lra].
  2:{ apply Rdiv_lt_0_compat; lra. }
  replace 3 with (INR 3) by (simpl; lra).
  rewrite Rpower_pow by (apply Rdiv_lt_0_compat; lra).
  replace ((2 / (1 * a0)) ^ 3 * 1 / (2 * 1 * 1)) with (4 / (a0 * a0 * a0))
    by (field; lra).
  replace (- (2 * r / (1 * a0)) / 2) with (- (r / a0)) by (field; lra).
  replace (- (- Ry / 1) * t / hbar) with (Ry * t / hbar) by (field; lra).
  f_equal. f_equal; ring.
Qed.

Lemma hydrogen_atom_ground_state_witness :
  0 <= 1 /\ 0 < 2
  /\ (let a0 := flit (F:=R) 5.29177210903e-11 in
      let Ry := flit (F:=R) 2.1798723611035e-18 in
      hydrogen_atom 0 1 1 0 3 2
      = Some {| real := sqrt (4 / (a0 * a0 * a0)) * exp (- (1 / a0))
                        * cos (Ry * 3 / 2);
                imag := sqrt (4 / (a0 * a0 * a0)) * exp (- (1 / a0))
                        * sin (Ry * 3 / 2) |}).
Proof.
  split; [lra|]. split; [lra|].
  apply (hydrogen_atom_ground_state 0%nat 1 3 2); lra.
Defined.

(** ** The waveform generators and the colour conversion *)

Local Open Scope R_scope.

Ltac shader_ops :=
  rewrite ?flit_R_0, ?flit_R_1, ?flit_R_2, ?flit_R_quarter, ?flit_R_half;
  cbn [fadd fsub fmul fdiv fneg flt of_int fsqrt fexp fsin fcos fpow fatan2
       M_PI_F R_FloatOps R_MathLib ffmod ffabs ffract fclamp fmix
       R_ShaderLib].

Lemma Rfmod_nonneg (x y : R) :
  0 <= x -> 0 < y -> 0 <= Rfmod x y < y.
Proof.
  intros Hx Hy. unfold Rfmod, Rtrunc.
  assert (Hq : 0 <= x / y) by (apply Rle_mult_inv_pos; assumption).
  destruct (Rle_dec 0 (x / y)) as [_|Hc]; [|contradiction].
  destruct (base_Int_part (x / y)) as [Hlo Hhi].
  set (k := IZR (Int_part (x / y))) in *.
  assert (Hxy : x = y * (x / y)) by (field; lra).
  split; nra.
Qed.

Lemma Rfmod_neg (x y : R) :
  x < 0 -> 0 < y -> - y < Rfmod x y <= 0.
Proof.
  intros Hx Hy. unfold Rfmod, Rtrunc.
  assert (Hxy : x = y * (x / y)) by (field; lra).
  assert (Hq : x / y < 0) by nra.
  destruct (Rle_dec 0 (x / y)) as [Hc|_]; [lra|].
  destruct (base_Int_part (- (x / y))) as [Hlo Hhi].
  rewrite opp_IZR.
  set (k := IZR (Int_part (- (x / y)))) in *.
  split; nra.
Qed.

Lemma Rfmod_small (x y : R) : 0 <= x < y -> Rfmod x y = x.
Proof.
  intros Hx. unfold Rfmod, Rtrunc.
  assert (Hq : 0 <= x / y < 1).
  { split.
    - apply Rle_mult_inv_pos; lra.
    - apply (Rmult_lt_reg_r y); [lra|].
      replace (x / y * y) with x by (field; lra). lra. }
  destruct (Rle_dec 0 (x / y)) as [_|Hc]; [|lra].
  replace (Int_part (x / y)) with 0%Z by (apply Int_part_spec; simpl; lra).
  ring.
Qed.

(** X25. Over the reals: [sine_wave] stays within [-|A|, |A|];
    [square_wave] only takes the values [A] and [-A]; and for a phase
    [>= 0], [triangle_wave] and [sawtooth_wave] stay within [-|A|, |A|]. *)
Theorem waveform_ranges (phase amplitude : R) :
  Rabs (sine_wave phase amplitude) <= Rabs amplitude
  /\ (square_wave phase amplitude = amplitude
      \/ square_wave phase amplitude = - amplitude)
  /\ (0 <= phase ->
      Rabs (triangle_wave phase amplitude) <= Rabs amplitude
      /\ Rabs (sawtooth_wave phase amplitude) <= Rabs amplitude).
Proof.
  split; [|split].
  - unfold sine_wave. shader_ops. rewrite Rabs_mult.
    rewrite <- (Rmult_1_r (Rabs amplitude)) at 2.
    apply Rmult_le_compat_l; [apply Rabs_pos|].
    apply Rabs_le. apply SIN_bound.
  - unfold square_wave. shader_ops.
    destruct (Rltb (Rfmod phase (2 * PI)) PI); [left|right]; ring.
  - intros Hp. pose proof PI_RGT_0 as Hpi.
    destruct (Rfmod_nonneg phase (2 * PI) Hp ltac:(lra)) as [Hlo Hhi].
    unfold triangle_wave, sawtooth_wave. shader_ops. cbv zeta.
    set (t := Rfmod phase (2 * PI) / (2 * PI)).
    assert (Ht : 0 <= t < 1).
    { unfold t. split.
      - apply Rle_mult_inv_pos; lra.
      - apply (Rmult_lt_reg_r (2 * PI)); [lra|].
        replace (Rfmod phase (2 * PI) / (2 * PI) * (2 * PI))
          with (Rfmod phase (2 * PI)) by (field; lra).
        lra. }
    split; rewrite Rabs_mult;
      rewrite <- (Rmult_1_r (Rabs amplitude)) at 2;
      (apply Rmult_le_compat_l; [apply Rabs_pos|]); apply Rabs_le.
    + assert (Hr : 0 <= Rabs (2 * t - 1) <= 1)
        by (split; [apply Rabs_pos|apply Rabs_le; lra]).
      lra.
    + lra.
Qed.

(** X26. Over the reals, for a negative phase [fmod] is negative or zero,
    and with [A > 0] the triangle wave is at least [A] and the sawtooth wave
    at most [-A]: neither oscillates within [-A, A] there. *)
Theorem waveform_negative_phase (phase amplitude : R) :
  phase < 0 -> 0 < amplitude ->
  amplitude <= triangle_wave phase amplitude
  /\ sawtooth_wave phase amplitude <= - amplitude.
Proof.
  intros Hp Ha. pose proof PI_RGT_0 as Hpi.
  destruct (Rfmod_neg phase (2 * PI) Hp ltac:(lra)) as [Hlo Hhi].
  unfold triangle_wave, sawtooth_wave. shader_ops. cbv zeta.
  set (t := Rfmod phase (2 * PI) / (2 * PI)).
  assert (Ht : -1 < t <= 0).
  { unfold t. split.
    - apply (Rmult_lt_reg_r (2 * PI)); [lra|].
      replace (Rfmod phase (2 * PI) / (2 * PI) * (2 * PI))
        with (Rfmod phase (2 * PI)) by (field; lra).
      lra.
    - apply (Rmult_le_reg_r (2 * PI)); [lra|].
      replace (Rfmod phase (2 * PI) / (2 * PI) * (2 * PI))
        with (Rfmod phase (2 * PI)) by (field; lra).
      lra. }
  split.
  - rewrite Rabs_left by lra. nra.
  - nra.
Qed.

(** X27. Over the reals, on the first period [0 <= phase < 2 pi]: the
    square wave is [A] before [pi] and [-A] from [pi] on, the sawtooth is
    the ramp [A (phase / pi - 1)], and the triangle is
    [A (2 |phase / pi - 1| - 1)]. *)
Theorem waveform_first_period (phase amplitude : R) :
  0 <= phase < 2 * PI ->
  square_wave phase amplitude
  = (if Rlt_dec phase PI then amplitude else - amplitude)
  /\ sawtooth_wave phase amplitude = amplitude * (phase / PI - 1)
  /\ triangle_wave phase amplitude
     = amplitude * (2 * Rabs (phase / PI - 1) - 1).
Proof.
  intros Hp. pose proof PI_RGT_0 as Hpi.
  unfold square_wave, sawtooth_wave, triangle_wave. shader_ops. cbv zeta.
  rewrite !Rfmod_small by assumption.
  replace (2 * (phase / (2 * PI)) - 1) with (phase / PI - 1) by (field; lra).
  split; [|split]; try reflexivity.
  unfold Rltb. destruct (Rlt_dec phase PI); ring.
Qed.

(* hsv *)
Lemma Rclamp_unit (x : R) : 0 <= Rclamp x 0 1 <= 1.
Proof.
  unfold Rclamp. split.
  - apply Rmin_glb; [apply Rmax_r|lra].
  - apply Rmin_r.
Qed.

Lemma hsv2rgb_channel_range (h s v k : R) :
  0 <= s <= 1 -> 0 <= v ->
  v * (1 - s) <= hsv2rgb_channel h s v k <= v.
Proof.
  intros Hs Hv. unfold hsv2rgb_channel. shader_ops. cbv zeta.
  unfold Rmix.
  match goal with
  | |- context [Rclamp ?x 0 1] =>
      pose proof (Rclamp_unit x) as Hc; set (c := Rclamp x 0 1) in *
  end.
  assert (Hm : 1 - s <= 1 + (c - 1) * s <= 1) by (split; nra).
  split; nra.
Qed.

(** X28. Over the reals, for a saturation in [0, 1] and a value [v >= 0],
    every channel of [hsv2rgb h s v] lies between [v (1 - s)] and [v]. *)
Theorem hsv2rgb_range (h s v : R) :
  0 <= s <= 1 -> 0 <= v ->
  v * (1 - s) <= vx (hsv2rgb h s v) <= v
  /\ v * (1 - s) <= vy (hsv2rgb h s v) <= v
  /\ v * (1 - s) <= vz (hsv2rgb h s v) <= v.
Proof.
  intros Hs Hv. unfold hsv2rgb. cbn [vx vy vz].
  repeat split; now apply hsv2rgb_channel_range.
Qed.

Lemma Rfract_plus_1 (x : R) : Rfract (x + 1) = Rfract x.
Proof.
  unfold Rfract.
  replace (Int_part (x + 1)) with (Int_part x + 1)%Z.
  - rewrite plus_IZR. ring.
  - apply Int_part_spec. rewrite plus_IZR.
    destruct (base_Int_part x). lra.
Qed.

Lemma Rfract_shift (h k : R) : Rfract (h + 1 + k) = Rfract (h + k).
Proof.
  replace (h + 1 + k) with (h + k + 1) by ring. apply Rfract_plus_1.
Qed.

Lemma Rfract_small (x : R) : 0 <= x < 1 -> Rfract x = x.
Proof.
  intros Hx. unfold Rfract.
  replace (Int_part x) with 0%Z by (apply Int_part_spec; simpl; lra).
  ring.
Qed.

Lemma flit_R_3 : flit (F:=R) 3.0 = 3.
Proof. unfold flit, R_FloatOps, Q2R. simpl. lra. Qed.

Lemma flit_R_6 : flit (F:=R) 6.0 = 6.
Proof. unfold flit, R_FloatOps, Q2R. simpl. lra. Qed.

Lemma Rclamp_below (x : R) : x <= 0 -> Rclamp x 0 1 = 0.
Proof.
  intros Hx. unfold Rclamp.
  rewrite (Rmax_right x 0) by assumption. apply Rmin_left. lra.
Qed.

Lemma Rclamp_above (x : R) : 1 <= x -> Rclamp x 0 1 = 1.
Proof.
  intros Hx. unfold Rclamp.
  rewrite (Rmax_left x 0) by lra. now apply Rmin_right.
Qed.

(** X29. Over the reals: at saturation [0] the colour is the grey
    [(v, v, v)]; the colour is periodic in the hue with period [1]; and hue
    [0] at full saturation and value is pure red [(1, 0, 0)]. *)
Theorem hsv2rgb_grey_and_period (h s v : R) :
  hsv2rgb h 0 v = {| vx := v; vy := v; vz := v |}
  /\ hsv2rgb (h + 1)%R s v = hsv2rgb h s v
  /\ hsv2rgb 0 1 1 = {| vx := 1; vy := 0; vz := 0 |}.
Proof.
  split; [|split].
  - unfold hsv2rgb, hsv2rgb_channel. shader_ops. cbv zeta. unfold Rmix.
    f_equal; ring.
  - unfold hsv2rgb, hsv2rgb_channel. shader_ops. cbv zeta.
    now rewrite !Rfract_shift.
  - unfold hsv2rgb, hsv2rgb_channel. shader_ops. cbv zeta.
    rewrite flit_R_3, flit_R_6. unfold Rmix.
    rewrite Rfract_plus_1, !Rfract_small by lra.
    assert (Hx : Rabs (0 * 6 - 3) = 3) by (rewrite Rabs_left; lra).
    assert (Hy : Rabs ((0 + 2 / 3) * 6 - 3) = 1)
      by (rewrite Rabs_pos_eq; lra).
    assert (Hz : Rabs ((0 + 1 / 3) * 6 - 3) = 1) by (rewrite Rabs_left; lra).
    rewrite Hx, Hy, Hz.
    rewrite Rclamp_above, Rclamp_below by lra.
    f_equal; ring.
Qed.

Lemma waveform_ranges_witness :
  Rabs (sine_wave 7 3) <= Rabs 3
  /\ (square_wave 7 3 = 3 \/ square_wave 7 3 = - 3)
  /\ Rabs (triangle_wave 7 3) <= Rabs 3
  /\ Rabs (sawtooth_wave 7 3) <= Rabs 3.
Proof.
  destruct (waveform_ranges 7 3) as (Hs & Hq & Ht).
  split; [exact Hs|]. split; [exact Hq|]. apply Ht. lra.
Defined.

Lemma waveform_negative_phase_witness :
  - 1 < 0 /\ 0 < 3
  /\ 3 <= triangle_wave (- 1) 3
  /\ sawtooth_wave (- 1) 3 <= - 3.
Proof.
  split; [lra|]. split; [lra|].
  apply (waveform_negative_phase (- 1) 3); lra.
Defined.

Lemma waveform_first_period_witness :
  0 <= 0 < 2 * PI
  /\ square_wave 0 3 = (if Rlt_dec 0 PI then 3 else - 3)
  /\ sawtooth_wave 0 3 = 3 * (0 / PI - 1)
  /\ triangle_wave 0 3 = 3 * (2 * Rabs (0 / PI - 1) - 1).
Proof.
  assert (Hp : 0 <= 0 < 2 * PI) by (pose proof PI_RGT_0; lra).
  split; [exact Hp|].
  exact (waveform_first_period 0 3 Hp).
Defined.

Lemma hsv2rgb_range_witness :
  0 <= 1 / 2 <= 1 /\ 0 <= 3
  /\ 3 * (1 - 1 / 2) <= vx (hsv2rgb (1 / 4) (1 / 2) 3) <= 3
  /\ 3 * (1 - 1 / 2) <= vy (hsv2rgb (1 / 4) (1 / 2) 3) <= 3
  /\ 3 * (1 - 1 / 2) <= vz (hsv2rgb (1 / 4) (1 / 2) 3) <= 3.
Proof.
  split; [lra|]. split; [lra|].
  apply (hsv2rgb_range (1 / 4) (1 / 2) 3); lra.
Defined.

Local Close Scope R_scope.

(** ** The host-side eigenstate *)

Local Open Scope R_scope.

Lemma zfact_fact (k : nat) : IZR (zfact k) = INR (fact k).
Proof.
  induction k as [|k IH]; [reflexivity|].
  change (zfact (S k)) with (Z.of_nat (S k) * zfact k)%Z.
  rewrite fact_simpl, mult_INR, mult_IZR, IH, <- INR_IZR_INZ. reflexivity.
Qed.

(** X30. Over the reals, for [0 <= n <= 12], where the [int] factorial is
    exact, the host-side [harmonic_oscillator_eigenstate] returns
    [exp(-alpha x^2 / 2) / sqrt(2^n n!)] with [alpha = sqrt(m omega / hbar)]:
    a Gaussian without Hermite factor, even in [x]. *)
Theorem eigenstate_small_levels (fuel : nat) (n : Z) (x omega hbar mass : R) :
  (0 <= n <= 12)%Z ->
  (Z.to_nat (n - 1) <= fuel)%nat ->
  0 < omega -> 0 < hbar -> 0 < mass ->
  Utils.harmonic_oscillator_eigenstate fuel n x omega hbar mass
  = Some (exp (- (sqrt (mass * omega / hbar) * (x * x)) / 2)
          / sqrt (2 ^ Z.to_nat n * INR (fact (Z.to_nat n)))).
Proof.
  intros Hn Hfuel Ho Hh Hm. unfold Utils.harmonic_oscillator_eigenstate.
  rewrite calc_factorial_value, zfact_fits
    by (assumption || unfold Int32.max_signed; lia).
  cbn [bind]. real_ops.
  rewrite Rpow_2_int, zfact_fact by lia.
  f_equal.
  replace (- sqrt (mass * omega / hbar) * x * x / 2)
    with (- (sqrt (mass * omega / hbar) * (x * x)) / 2)
    by (unfold Rdiv; ring).
  field. apply Rgt_not_eq, sqrt_lt_R0.
  apply Rmult_lt_0_compat; [apply pow_lt; lra|apply INR_fact_lt_0].
Qed.

Lemma eigenstate_small_levels_witness :
  (0 <= 4 <= 12)%Z /\ (Z.to_nat (4 - 1) <= 3)%nat
  /\ 0 < 2 /\ 0 < 1 /\ 0 < 3
  /\ Utils.harmonic_oscillator_eigenstate 3 4 (1 / 2) 2 1 3
     = Some (exp (- (sqrt (3 * 2 / 1) * (1 / 2 * (1 / 2))) / 2)
             / sqrt (2 ^ Z.to_nat 4 * INR (fact (Z.to_nat 4)))).
Proof.
  split; [lia|]. split; [simpl; lia|].
  split; [lra|]. split; [lra|]. split; [lra|].
  apply (eigenstate_small_levels 3%nat 4%Z (1 / 2) 2 1 3);
    first [lra | lia | simpl; lia].
Defined.

Local Close Scope R_scope.
